(** * asyncioclass67: the async iterator demo and the checkout simulation

    A shallow embedding of [assignment06/asyncio02.py] and
    [assignment11/shopping02.py].

    Coroutines are modelled by their resumption functions: the state of a
    task is the [await] it stands at together with its live local
    variables, and resuming it runs the code up to the next [await].
    Every [await] is a point where the event loop may run another task
    (asyncio switches there only when the awaited operation is not ready,
    so the model admits every interleaving of asyncio, and more).  Wall
    clock time is not modelled: a sleeping task may be resumed at any later
    step.  Python floats are IEEE binary64 numbers, the kernel's [float]. *)

From Stdlib Require Import Floats ZArith QArith Lia Lqa.
From stdpp Require Import base option list strings.

Local Open Scope Z_scope.
Set Warnings "-inexact-float".

(** ** Python numbers *)

Module PyNum.

(** [n / d] rounded to the nearest integer, ties to the even one
    (for [0 < d]). *)
Definition round_half_even_div (n d : Z) : Z :=
  let q := n / d in
  match Z.compare (2 * (n mod d)) d with
  | Lt => q
  | Gt => q + 1
  | Eq => if Z.even q then q else q + 1
  end.

(** The magnitude [m * 2^e] times one hundred, rounded to an integer. *)
Definition hundredths (m : positive) (e : Z) : Z :=
  match e with
  | Zneg p => round_half_even_div (100 * Zpos m) (2 ^ Zpos p)
  | _ => 100 * Zpos m * 2 ^ e
  end.

(** The builtin [round(x, ndigits=2)] on a float: [x] is rounded
    correctly to two decimal places (ties of the exact binary value to
    even), and the resulting decimal is converted back to the nearest
    binary64 number; infinities and nans round to themselves.  On the
    int [1] of the catalog Python's [round] returns the int unchanged,
    which is the value [1.0] here. *)
Definition round2 (x : float) : float :=
  match Prim2SF x with
  | S754_finite s m e =>
      match hundredths m e with
      | Zpos n =>
          SF2Prim (SFdiv prec emax (S754_finite s n 0) (S754_finite false 100 0))
      | _ => SF2Prim (S754_zero s)
      end
  | _ => x
  end.

(** The exact rational value of a finite float. *)
Definition to_Q (x : float) : Q :=
  match Prim2SF x with
  | S754_finite s m e =>
      let n := if s then Zneg m else Zpos m in
      match e with
      | Zneg p => Qmake n (2 ^ p)
      | _ => inject_Z (n * 2 ^ e)
      end
  | _ => 0%Q
  end.

(** [l[i]] for a Python list: the position an index denotes, negative
    indices counting from the end; [None] is [IndexError]. *)
Definition index {A} (l : list A) (i : Z) : option nat :=
  let n := Z.of_nat (length l) in
  if (0 <=? i) && (i <? n) then Some (Z.to_nat i)
  else if (- n <=? i) && (i <? 0) then Some (Z.to_nat (i + n))
  else None.

(** [l[i] += t] on a list of floats. *)
Definition add_at (l : list float) (i : Z) (t : float) : option (list float) :=
  k ← index l i;
  v ← l !! k;
  Some (<[k := (v + t)%float]> l).

End PyNum.

(** ** assignment06/asyncio02.py *)

Module AsyncIter.

Record AsyncIterator := { counter : Z }.

(** What the program does that can be observed: it sleeps and it prints. *)
Inductive Event :=
| Slept (secs : Z)
| Printed (item : Z).

Inductive Outcome :=
| Return (value : Z)
| StopAsyncIteration.

(** [AsyncIterator()] *)
Definition init : AsyncIterator := {| counter := 0 |}.

(** [__aiter__] *)
Definition aiter (self : AsyncIterator) : AsyncIterator := self.

(** [__anext__]: the outcome, the iterator afterwards, and the events
    of the call. *)
Definition anext (self : AsyncIterator) : Outcome * AsyncIterator * list Event :=
  if 10 <=? counter self then (StopAsyncIteration, self, [])
  else
    let self := {| counter := counter self + 1 |} in
    (Return (counter self), self, [Slept 1]).

(** [async for item in it: print(item)]: [None] when the fuel runs out
    before the iterator stops. *)
Fixpoint async_for (fuel : nat) (it : AsyncIterator) : option (list Event) :=
  match fuel with
  | O => None
  | S fuel =>
      match anext it with
      | (StopAsyncIteration, _, evs) => Some evs
      | (Return item, it, evs) =>
          rest ← async_for fuel it;
          Some (evs ++ Printed item :: rest)
      end
  end.

Definition main (fuel : nat) : option (list Event) :=
  async_for fuel (aiter init).

(** The iterator after [k] calls of [__anext__] on a fresh one. *)
Fixpoint after_calls (k : nat) : AsyncIterator :=
  match k with
  | O => init
  | S k => (anext (after_calls k)).1.2
  end.

(** The [k]-th call (counted from 1) on a fresh iterator. *)
Definition nth_call (k : nat) : Outcome * list Event :=
  let r := anext (after_calls (Nat.pred k)) in (r.1.1, r.2).

(** [Slept 1; Printed (c+1); ...; Slept 1; Printed (c+n)] *)
Fixpoint ticks (c : Z) (n : nat) : list Event :=
  match n with
  | O => []
  | S n => Slept 1 :: Printed (c + 1) :: ticks (c + 1) n
  end.

End AsyncIter.

(** ** assignment11/shopping02.py: the data model *)

Module Shopping.

Record Product := { product_name : string; checkout_time : float }.

Record Customer := { customer_id : Z; products : list Product }.

(** *** asyncio.Queue *)

(** Modelled from the spec: [asyncio.Queue] is the Python standard
    library's class, not code of the repository; this is the
    BoundedQueue of the design: the buffered items, oldest first, and
    the unfinished-work counter U.  A capacity that is not positive
    means no bound, as in asyncio. *)
Record Queue := {
  maxsize : Z;
  items : list Customer;
  unfinished_tasks : Z
}.

(** [Queue(maxsize)] *)
Definition Queue_new (maxsize : Z) : Queue :=
  {| maxsize := maxsize; items := []; unfinished_tasks := 0 |}.

Definition full (q : Queue) : bool :=
  (0 <? maxsize q) && (maxsize q <=? Z.of_nat (length (items q))).

(** Modelled from the spec: [put] appends at the tail and increments U;
    [None] when the queue is full, where the caller stays suspended. *)
Definition put (q : Queue) (item : Customer) : option Queue :=
  if full q then None
  else Some {| maxsize := maxsize q;
               items := items q ++ [item];
               unfinished_tasks := unfinished_tasks q + 1 |}.

(** Modelled from the spec: [get] removes and returns the head item;
    [None] when the queue is empty, where the caller stays suspended. *)
Definition get (q : Queue) : option (Customer * Queue) :=
  match items q with
  | [] => None
  | c :: rest =>
      Some (c, {| maxsize := maxsize q;
                  items := rest;
                  unfinished_tasks := unfinished_tasks q |})
  end.

(** Modelled from the spec: [task_done] (mark_done) decrements U;
    [None] is the accounting error, raised when U would go negative. *)
Definition task_done (q : Queue) : option Queue :=
  if unfinished_tasks q <=? 0 then None
  else Some {| maxsize := maxsize q;
               items := items q;
               unfinished_tasks := unfinished_tasks q - 1 |}.

(** Modelled from the spec: [join] returns when U is zero, and keeps the
    caller suspended otherwise. *)
Definition join (q : Queue) : option unit :=
  if unfinished_tasks q =? 0 then Some tt else None.

(** [n] puts in a row, none of them suspended. *)
Fixpoint put_all (q : Queue) (l : list Customer) : option Queue :=
  match l with
  | [] => Some q
  | c :: l => q ← put q c; put_all q l
  end.

(** [n] gets in a row, none of them suspended. *)
Fixpoint get_n (n : nat) (q : Queue) : option (list Customer * Queue) :=
  match n with
  | O => Some ([], q)
  | S n =>
      '(c, q) ← get q;
      '(l, q) ← get_n n q;
      Some (c :: l, q)
  end.

(** *** What a run does, in order *)

Inductive Event :=
| EPut (c : Customer)                     (* line 80: put returned *)
| EGet (cashier : Z) (c : Customer)       (* line 36: get returned *)
| EAdd (cashier : Z) (t : float)          (* line 48 *)
| ETaskDone (cashier : Z)                 (* line 57 *)
| ERaise (cashier : Z)                    (* an exception ends the cashier *)
| ECancelled (cashier : Z)                (* CancelledError ends the cashier *)
| EProducerReturn (n : Z)                 (* line 86 *)
| EJoinReturn                             (* line 104: join returned *)
| ECancel (cashier : Z)                   (* line 108 *)
| EReport (total : Z) (times : list float). (* lines 110 to 115 *)

(** *** checkout_customer *)

(** Where a cashier stands, with its live local variables.  The local
    [total_time] is fed by [time.perf_counter] and read only by the
    [return] of line 59; it is left out. *)
Inductive CashierPoint :=
| AtGet (customer_count : Z)
    (* at [await queue.get()], line 36 *)
| AtSleep (customer_count : Z) (customer : Customer)
          (product_take_time : float) (rest : list Product)
    (* at [await asyncio.sleep(product_take_time)], line 47; the loop of
       line 43 still has [rest] to go *)
| Cancelled
| Raised
| Returned.  (* line 59 *)

Record CashierTask := {
  cashier_number : Z;
  point : CashierPoint;
  must_cancel : bool   (* [cancel()] was called on the task *)
}.

Definition at_point (me : CashierTask) (pt : CashierPoint) : CashierTask :=
  {| cashier_number := cashier_number me; point := pt;
     must_cancel := must_cancel me |}.

Definition done (me : CashierTask) : bool :=
  match point me with
  | Cancelled | Raised | Returned => true
  | _ => false
  end.

(** [Task.cancel()]: a request, without effect on a task that is done. *)
Definition cancel (me : CashierTask) : CashierTask :=
  if done me then me
  else {| cashier_number := cashier_number me; point := point me;
          must_cancel := true |}.

(** Line 35: [while True]. *)
Definition while_condition : bool := true.

(** The top of the [while] loop: the test, then the [await] of line 36. *)
Definition while_top (customer_count : Z) : CashierPoint :=
  if while_condition then AtGet customer_count else Returned.

(** The [for] loop of line 43 with [ps] still to check out, up to the
    next [await]: either the sleep for the first of [ps], or, with none
    left, [task_done] and the top of the [while] loop. *)
Definition for_products (n customer_count : Z) (c : Customer)
    (ps : list Product) (q : Queue) : CashierPoint * Queue * list Event :=
  match ps with
  | product :: rest =>
      let product_take_time := PyNum.round2 (checkout_time product) in
      (AtSleep customer_count c product_take_time rest, q, [])
  | [] =>
      match task_done q with
      | Some q => (while_top customer_count, q, [ETaskDone n])
      | None => (Raised, q, [ERaise n])
      end
  end.

(** Resuming the cashier [me]: [None] when it cannot run (it is done,
    or it waits in [get] on an empty queue). *)
Definition checkout_customer (me : CashierTask) (q : Queue)
    (cashier_times : list float)
    : option (CashierTask * Queue * list float * list Event) :=
  let n := cashier_number me in
  if done me then None
  else if must_cancel me then
    Some (at_point me Cancelled, q, cashier_times, [ECancelled n])
  else
    match point me with
    | AtGet customer_count =>
        '(customer, q) ← get q;
        let customer_count := customer_count + 1 in
        let '(pt, q, evs) :=
          for_products n customer_count customer (products customer) q in
        Some (at_point me pt, q, cashier_times, EGet n customer :: evs)
    | AtSleep customer_count customer product_take_time rest =>
        match PyNum.add_at cashier_times n product_take_time with
        | Some cashier_times =>
            let '(pt, q, evs) :=
              for_products n customer_count customer rest q in
            Some (at_point me pt, q, cashier_times,
                  EAdd n product_take_time :: evs)
        | None => Some (at_point me Raised, q, cashier_times, [ERaise n])
        end
    | _ => None
    end.

(** [checkout_customer(queue, i, cashier_times)] as a fresh task. *)
Definition checkout_customer_task (i : Z) : CashierTask :=
  {| cashier_number := i; point := while_top 0; must_cancel := false |}.

(** *** generate_customer and customer_generation *)

Definition generate_customer (customer_id : Z) : Customer :=
  let all_products :=
    [ {| product_name := "beef"; checkout_time := 1 |};
      {| product_name := "banana"; checkout_time := 0.4 |};
      {| product_name := "sausage"; checkout_time := 0.4 |};
      {| product_name := "diapers"; checkout_time := 0.2 |} ] in
  {| customer_id := customer_id; products := all_products |}.

Inductive ProducerPoint :=
| AtLoop (customer_count : Z)
    (* before the test of line 77: the task has not run yet, or it is
       in the sleep of line 84 *)
| AtPut (customer_count : Z) (new_customer : Customer)
    (* at [await queue.put(new_customer)], line 80 *)
| Produced (result : Z).  (* line 86 *)

Record ProducerTask := {
  total_customers : Z;
  ppoint : ProducerPoint
}.

(** Resuming the producer: [None] when it cannot run (it has returned,
    or it waits in [put] on a full queue). *)
Definition customer_generation (me : ProducerTask) (q : Queue)
    : option (ProducerTask * Queue * list Event) :=
  let now_at pt := {| total_customers := total_customers me; ppoint := pt |} in
  match ppoint me with
  | AtLoop customer_count =>
      if customer_count <? total_customers me then
        let new_customer := generate_customer customer_count in
        Some (now_at (AtPut customer_count new_customer), q, [])
      else
        Some (now_at (Produced customer_count), q,
              [EProducerReturn customer_count])
  | AtPut customer_count new_customer =>
      q ← put q new_customer;
      Some (now_at (AtLoop (customer_count + 1)), q, [EPut new_customer])
  | Produced _ => None
  end.

(** *** main *)

Inductive MainPoint :=
| AtAwaitProducer   (* line 103 *)
| AtJoin            (* line 104 *)
| Finished (total : Z) (times : list float)
    (* the report of lines 110 to 115 *)
| Failed.           (* [result()] of a producer that has not returned *)

Record State := {
  customer_queue : Queue;
  customer_producer : ProducerTask;
  cashier_times : list float;
  cashiers : list CashierTask;
  main_task : MainPoint;
  trace : list Event
}.

(** Lines 91 to 101, up to the first [await], for a queue size, a
    number of customers and a number of cashiers.  The slots of
    [[0] * 5] are the int 0, here the float of the same value, which
    the first addition of a float makes of it. *)
Definition start (size total : Z) (n_cashiers : nat) : State :=
  {| customer_queue := Queue_new size;
     customer_producer := {| total_customers := total; ppoint := AtLoop 0 |};
     cashier_times := replicate n_cashiers 0%float;
     cashiers :=
       (λ i, checkout_customer_task (Z.of_nat i)) <$> seq 0 n_cashiers;
     main_task := AtAwaitProducer;
     trace := [] |}.

(** [main()]: [Queue(5)], 20 customers, 5 cashiers. *)
Definition main_start : State := start 5 20 5.

(** Resuming [main]: [None] when it cannot run (it has ended, the
    producer has not returned yet, or it waits in [join]). *)
Definition main (s : State) : option State :=
  match main_task s with
  | AtAwaitProducer =>
      match ppoint (customer_producer s) with
      | Produced _ =>
          Some {| customer_queue := customer_queue s;
                  customer_producer := customer_producer s;
                  cashier_times := cashier_times s;
                  cashiers := cashiers s;
                  main_task := AtJoin;
                  trace := trace s |}
      | _ => None
      end
  | AtJoin =>
      _ ← join (customer_queue s);
      let cancelled := cancel <$> cashiers s in
      let cancels := (λ c, ECancel (cashier_number c)) <$> cashiers s in
      match ppoint (customer_producer s) with
      | Produced result =>
          Some {| customer_queue := customer_queue s;
                  customer_producer := customer_producer s;
                  cashier_times := cashier_times s;
                  cashiers := cancelled;
                  main_task := Finished result (cashier_times s);
                  trace := trace s ++ EJoinReturn :: cancels
                             ++ [EReport result (cashier_times s)] |}
      | _ =>
          Some {| customer_queue := customer_queue s;
                  customer_producer := customer_producer s;
                  cashier_times := cashier_times s;
                  cashiers := cancelled;
                  main_task := Failed;
                  trace := trace s ++ EJoinReturn :: cancels |}
      end
  | _ => None
  end.

(** *** The event loop *)

Inductive Task :=
| TMain
| TProducer
| TCashier (k : nat).

(** One turn of the event loop: the task [t] runs up to its next
    [await]; [None] when [t] cannot run. *)
Definition step (t : Task) (s : State) : option State :=
  match t with
  | TMain => main s
  | TProducer =>
      '(p, q, evs) ← customer_generation (customer_producer s) (customer_queue s);
      Some {| customer_queue := q;
              customer_producer := p;
              cashier_times := cashier_times s;
              cashiers := cashiers s;
              main_task := main_task s;
              trace := trace s ++ evs |}
  | TCashier k =>
      me ← cashiers s !! k;
      '(me, q, times, evs) ← checkout_customer me (customer_queue s) (cashier_times s);
      Some {| customer_queue := q;
              customer_producer := customer_producer s;
              cashier_times := times;
              cashiers := <[k := me]> (cashiers s);
              main_task := main_task s;
              trace := trace s ++ evs |}
  end.

Fixpoint run (schedule : list Task) (s : State) : option State :=
  match schedule with
  | [] => Some s
  | t :: schedule => s ← step t s; run schedule s
  end.

(** The states of the runs from [s0]. *)
Inductive reachable (s0 : State) : State → Prop :=
| reachable_start : reachable s0 s0
| reachable_step s t s' :
    reachable s0 s → step t s = Some s' → reachable s0 s'.

(** A state in which no task can run. *)
Definition stuck (s : State) : Prop := ∀ t, step t s = None.

(** *** Histories *)

Definition is_put (e : Event) : bool :=
  match e with EPut _ => true | _ => false end.

Definition is_task_done (e : Event) : bool :=
  match e with ETaskDone _ => true | _ => false end.

Definition is_get (e : Event) : bool :=
  match e with EGet _ _ => true | _ => false end.

Definition is_get_of (i : Z) (e : Event) : bool :=
  match e with EGet j _ => i =? j | _ => false end.

Definition is_add_of (i : Z) (e : Event) : bool :=
  match e with EAdd j _ => i =? j | _ => false end.

Definition is_task_done_of (i : Z) (e : Event) : bool :=
  match e with ETaskDone j => i =? j | _ => false end.

Definition count (f : Event → bool) (tr : list Event) : nat :=
  length (List.filter f tr).

(** The customers put in line, and the customers taken from it, in order. *)
Definition put_log (tr : list Event) : list Customer :=
  omap (λ e, match e with EPut c => Some c | _ => None end) tr.

Definition get_log (tr : list Event) : list Customer :=
  omap (λ e, match e with EGet _ c => Some c | _ => None end) tr.

(** The customers with the identifiers [0 .. m-1]. *)
Definition generated (m : nat) : list Customer :=
  (λ i, generate_customer (Z.of_nat i)) <$> seq 0 m.

(** The producer's local [customer_count]. *)
Definition produced_so_far (p : ProducerTask) : Z :=
  match ppoint p with
  | AtLoop n | AtPut n _ | Produced n => n
  end.

(** A cashier that has taken a customer and not yet marked it done. *)
Definition holding (me : CashierTask) : nat :=
  match point me with AtSleep _ _ _ _ => 1 | _ => 0 end.

Definition holders (cs : list CashierTask) : nat := sum_list_with holding cs.

(** *** The times of the catalog *)

Definition take_times (ps : list Product) : list float :=
  (λ p, PyNum.round2 (checkout_time p)) <$> ps.

(** [1, 0.4, 0.4, 0.2] *)
Definition catalog_times : list float :=
  take_times (products (generate_customer 0)).

(** A slot after [n] additions of line 48, when every customer carries
    the catalog: the times are added from the left, in binary64. *)
Fixpoint accumulated (n : nat) : float :=
  match n with
  | O => 0%float
  | S n => (accumulated n + nth (n mod 4) catalog_times 0)%float
  end.

(** The exact sum of the slots. *)
Definition exact_total (times : list float) : Q :=
  foldr (λ t a, PyNum.to_Q t + a)%Q 0%Q times.

(** *** Invariants of the runs *)

Record shape_inv (size total : Z) (n : nat) (s : State) : Prop := {
  inv_size : maxsize (customer_queue s) = size;
  inv_total : total_customers (customer_producer s) = total;
  inv_times : length (cashier_times s) = n;
  inv_cashiers : length (cashiers s) = n;
  inv_number : ∀ k me,
    cashiers s !! k = Some me → cashier_number me = Z.of_nat k;
  inv_points : ∀ k me,
    cashiers s !! k = Some me →
    point me ≠ Raised ∧ point me ≠ Returned ∧
    (point me = Cancelled → must_cancel me = true);
  inv_unfinished :
    unfinished_tasks (customer_queue s)
    = Z.of_nat (length (items (customer_queue s)) + holders (cashiers s));
  inv_main :
    match main_task s with
    | AtAwaitProducer => ∀ k me, cashiers s !! k = Some me → must_cancel me = false
    | AtJoin =>
        (∀ k me, cashiers s !! k = Some me → must_cancel me = false) ∧
        ∃ r, ppoint (customer_producer s) = Produced r
    | Finished r ts =>
        ppoint (customer_producer s) = Produced r ∧
        ts = cashier_times s ∧
        unfinished_tasks (customer_queue s) = 0 ∧
        ∀ k me, cashiers s !! k = Some me → must_cancel me = true
    | Failed => False
    end
}.

Record history_inv (total : Z) (s : State) : Prop := {
  hist_puts : ∃ m : nat,
    produced_so_far (customer_producer s) = Z.of_nat m ∧
    put_log (trace s) = generated m;
  hist_at_put : ∀ n c,
    ppoint (customer_producer s) = AtPut n c →
    c = generate_customer n ∧ n < total;
  hist_at_loop : ∀ n,
    ppoint (customer_producer s) = AtLoop n → n ≤ Z.max 0 total;
  hist_produced : ∀ r,
    ppoint (customer_producer s) = Produced r → r = Z.max 0 total;
  hist_fifo :
    put_log (trace s) = get_log (trace s) ++ items (customer_queue s);
  hist_unfinished :
    unfinished_tasks (customer_queue s)
    = Z.of_nat (count is_put (trace s)) - Z.of_nat (count is_task_done (trace s))
}.

(** A customer with the times of the catalog. *)
Definition catalog_customer (c : Customer) : Prop :=
  take_times (products c) = catalog_times.

(** What the history of a cashier is at each point: [adds] additions of
    line 48 and [gets] customers taken, four additions for each
    customer checked out. *)
Definition point_inv (pt : CashierPoint) (adds gets : nat) : Prop :=
  match pt with
  | AtGet customer_count =>
      adds = (4 * gets)%nat ∧ customer_count = Z.of_nat gets
  | AtSleep customer_count c t rest =>
      ∃ g before,
        gets = S g ∧ adds = (4 * g + length before)%nat ∧
        customer_count = Z.of_nat gets ∧
        catalog_times = before ++ t :: take_times rest
  | Cancelled => adds = (4 * gets)%nat
  | _ => False
  end.

(** The slot of the cashier [k] holds the sum of its additions. *)
Definition slot_inv_at (s : State) (k : nat) (me : CashierTask) : Prop :=
  let adds := count (is_add_of (Z.of_nat k)) (trace s) in
  let gets := count (is_get_of (Z.of_nat k)) (trace s) in
  cashier_times s !! k = Some (accumulated adds) ∧
  point_inv (point me) adds gets.

Definition get_event_below (n : nat) (e : Event) : Prop :=
  match e with
  | EGet i _ => ∃ k, (k < n)%nat ∧ i = Z.of_nat k
  | _ => True
  end.

Record slot_inv (s : State) : Prop := {
  slot_cashiers : ∀ k me, cashiers s !! k = Some me → slot_inv_at s k me;
  slot_items : Forall catalog_customer (items (customer_queue s));
  slot_at_put : ∀ n c,
    ppoint (customer_producer s) = AtPut n c → catalog_customer c;
  slot_events : Forall (get_event_below (length (cashiers s))) (trace s)
}.

(** The events of the cashier [k]. *)
Definition own_event (k : nat) (e : Event) : Prop :=
  match e with
  | EGet i _ | EAdd i _ | ETaskDone i | ERaise i | ECancelled i =>
      i = Z.of_nat k
  | _ => False
  end.

(** Every customer a cashier has taken is marked done, or still held. *)
Definition done_inv (s : State) : Prop :=
  ∀ k me, cashiers s !! k = Some me →
    count (is_get_of (Z.of_nat k)) (trace s)
    = (count (is_task_done_of (Z.of_nat k)) (trace s) + holding me)%nat.

(** The events of [main]: no queue operations and no additions. *)
Definition main_event (e : Event) : Prop :=
  match e with
  | EJoinReturn | ECancel _ | EReport _ _ => True
  | _ => False
  end.

(** The events of the work: they all come before main leaves [join]. *)
Definition working_event (e : Event) : Prop :=
  match e with
  | EPut _ | EGet _ _ | EAdd _ _ | ETaskDone _ | ERaise _
  | EProducerReturn _ => True
  | _ => False
  end.

(** The events of the shutdown, after main has left [join]. *)
Definition shutdown_event (e : Event) : Prop :=
  match e with
  | ECancel _ | EReport _ _ | ECancelled _ => True
  | _ => False
  end.

(** The order of a run: the work, then [EJoinReturn], then the
    shutdown. *)
Definition trace_inv (s : State) : Prop :=
  (∀ r, ppoint (customer_producer s) = Produced r →
        EProducerReturn r ∈ trace s) ∧
  match main_task s with
  | AtAwaitProducer | AtJoin => Forall working_event (trace s)
  | Finished r ts =>
      ∃ pre post,
        trace s = pre ++ EJoinReturn :: post ∧
        Forall working_event pre ∧ Forall shutdown_event post ∧
        EProducerReturn r ∈ pre ∧
        count is_put pre = count is_task_done pre
  | Failed => False
  end.

(** The slots added up from the left, in binary64. *)
Definition float_total (times : list float) : float :=
  foldl PrimFloat.add 0%float times.

(** How far a slot after [g] customers is from the decimal [2 g]. *)
Definition slot_error (g : nat) : Q :=
  (PyNum.to_Q (accumulated (4 * g)) - inject_Z (2 * Z.of_nat g))%Q.

(** *** Termination *)

(** The turns of the event loop a task or a customer in line still
    stands for: every turn makes the sum smaller. *)
Definition customer_weight (c : Customer) : nat := S (length (products c)).

Definition cashier_weight (me : CashierTask) : nat :=
  match point me with
  | AtGet _ => 1
  | AtSleep _ _ _ rest => length rest + 2
  | _ => 0
  end.

Definition producer_weight (p : ProducerTask) : nat :=
  match ppoint p with
  | AtLoop n => 7 * Z.to_nat (total_customers p - n) + 1
  | AtPut n c =>
      7 * Z.to_nat (total_customers p - (n + 1)) + customer_weight c + 2
  | Produced _ => 0
  end.

Definition main_weight (m : MainPoint) : nat :=
  match m with
  | AtAwaitProducer => 2
  | AtJoin => 1
  | _ => 0
  end.

Definition weight (s : State) : nat :=
  producer_weight (customer_producer s)
  + sum_list_with customer_weight (items (customer_queue s))
  + sum_list_with cashier_weight (cashiers s)
  + main_weight (main_task s).

(** The end of a run: main has reported and every cashier is cancelled. *)
Definition final (s : State) : Prop :=
  (∃ r ts, main_task s = Finished r ts) ∧
  ∀ k me, cashiers s !! k = Some me → point me = Cancelled.

(** *** A run of [main] *)

(** The producer generates a customer and puts it in line. *)
Definition arrive : list Task := [TProducer; TProducer].

(** All cashiers, one after the other, [n] times. *)
Definition each_cashier (n : nat) : list Task :=
  concat (replicate n (TCashier <$> seq 0 5)).

(** The run in which the cashiers take turns, as the timers of asyncio
    make them: the first five customers go to the five waiting cashiers
    as they arrive, the next five fill the queue, and whenever the
    cashiers have finished their customers (four sleeps each) they take
    the next five, while the producer refills the queue. *)
Definition round_robin : list Task :=
  concat ((λ k, arrive ++ [TCashier k]) <$> seq 0 5)
  ++ concat (replicate 5 arrive) ++ [TProducer]
  ++ each_cashier 4
  ++ concat ((λ k, TCashier k :: arrive) <$> seq 0 5)
  ++ each_cashier 4
  ++ concat ((λ k, TCashier k :: arrive) <$> seq 0 5)
  ++ each_cashier 5
  ++ each_cashier 4
  ++ [TMain; TMain]
  ++ each_cashier 1.

(** The state after a schedule ([main_start] itself when the schedule
    cannot be run). *)
Definition after (schedule : list Task) : State :=
  default main_start (run schedule main_start).

(** [round_robin] up to the point where [main] waits in [join] and
    every customer is marked done. *)
Definition until_join : list Task := take 142 round_robin.

(** The state after a schedule from any start ([s0] itself when the
    schedule cannot be run). *)
Definition after_from (s0 : State) (schedule : list Task) : State :=
  default s0 (run schedule s0).

(** The delivery of a cancellation to a cashier. *)
Definition cancelled_event (e : Event) : Prop :=
  match e with ECancelled _ => True | _ => False end.

(** The number of cashiers that have ended. *)
Definition ended (cs : list CashierTask) : nat :=
  sum_list_with (λ me, if done me then 1 else 0)%nat cs.

(** The requests of line 108, for the cashiers [0 .. n-1] in order. *)
Definition cancel_requests (n : nat) : list Event :=
  (λ i, ECancel (Z.of_nat i)) <$> seq 0 n.

End Shopping.

(** * Properties *)

(** ** The async iterator *)

Section AsyncIterFacts.
Import AsyncIter.

Lemma anext_below (c : Z) :
  c < 10 →
  anext {| counter := c |} = (Return (c + 1), {| counter := c + 1 |}, [Slept 1]).
Proof.
  intros Hc. unfold anext. simpl.
  destruct (10 <=? c) eqn:E; [apply Z.leb_le in E; lia | reflexivity].
Qed.

Lemma anext_stop (self : AsyncIterator) :
  10 ≤ counter self → anext self = (StopAsyncIteration, self, []).
Proof.
  intros Hc. unfold anext.
  destruct (10 <=? counter self) eqn:E; [reflexivity | apply Z.leb_gt in E; lia].
Qed.

Lemma after_calls_counter (k : nat) :
  after_calls k = {| counter := Z.min (Z.of_nat k) 10 |}.
Proof.
  induction k as [|k IH]; [reflexivity|].
  cbn [after_calls]. rewrite IH.
  destruct (Z.lt_ge_cases (Z.of_nat k) 10) as [Hlt|Hge].
  - rewrite Z.min_l by lia. rewrite anext_below by lia. simpl.
    f_equal. lia.
  - rewrite Z.min_r by lia. rewrite anext_stop by (simpl; lia). simpl.
    f_equal. lia.
Qed.

(** The loop from a counter [c] prints [c+1 .. 10] and stops, whenever
    the fuel covers the calls it makes. *)
Lemma async_for_from (fuel : nat) (c : Z) :
  0 ≤ c ≤ 10 → (Z.to_nat (10 - c) < fuel)%nat →
  async_for fuel {| counter := c |} = Some (ticks c (Z.to_nat (10 - c))).
Proof.
  revert c. induction fuel as [|fuel IH]; intros c Hc Hfuel; [lia|].
  cbn [async_for].
  destruct (Z.eq_dec c 10) as [->|Hne].
  - rewrite anext_stop by (simpl; lia). reflexivity.
  - rewrite anext_below by lia.
    rewrite IH by lia. simpl.
    replace (Z.to_nat (10 - c)) with (S (Z.to_nat (10 - (c + 1)))) by lia.
    reflexivity.
Qed.

(** C9: the k-th call of [__anext__] on a fresh iterator, for k from 1 to
    10, returns k after a sleep of one second; every call made once the
    counter has reached 10 raises StopAsyncIteration and leaves the
    iterator as it is; and the [async for] loop of [main], given fuel for
    its eleven calls, prints exactly 1, 2, ..., 10 in this order, each
    after one sleep, and ends. *)
Theorem async_iterator_counts_to_ten :
  (∀ k : nat, (1 ≤ k ≤ 10)%nat →
     nth_call k = (Return (Z.of_nat k), [Slept 1])) ∧
  (∀ self, 10 ≤ counter self →
     anext self = (StopAsyncIteration, self, [])) ∧
  (∀ k : nat, (10 < k)%nat → nth_call k = (StopAsyncIteration, [])) ∧
  (∀ fuel : nat, (10 < fuel)%nat →
     main fuel =
       Some [Slept 1; Printed 1; Slept 1; Printed 2; Slept 1; Printed 3;
             Slept 1; Printed 4; Slept 1; Printed 5; Slept 1; Printed 6;
             Slept 1; Printed 7; Slept 1; Printed 8; Slept 1; Printed 9;
             Slept 1; Printed 10]).
Proof.
  repeat split.
  - intros k Hk. unfold nth_call. rewrite after_calls_counter.
    rewrite Z.min_l by lia. rewrite anext_below by lia. simpl.
    do 2 f_equal. lia.
  - exact anext_stop.
  - intros k Hk. unfold nth_call. rewrite after_calls_counter.
    rewrite Z.min_r by lia. rewrite anext_stop by (simpl; lia). reflexivity.
  - intros fuel Hfuel. unfold main, aiter, init.
    rewrite async_for_from by (simpl; lia). reflexivity.
Qed.

End AsyncIterFacts.

Import Shopping.

(** ** The queue *)

Section QueueFacts.

Lemma put_items q c q' :
  put q c = Some q' →
  items q' = items q ++ [c] ∧ maxsize q' = maxsize q ∧
  unfinished_tasks q' = unfinished_tasks q + 1.
Proof.
  unfold put. destruct (full q); [discriminate|].
  intros [= <-]. simpl. auto.
Qed.

Lemma get_items q c q' :
  get q = Some (c, q') →
  items q = c :: items q' ∧ maxsize q' = maxsize q ∧
  unfinished_tasks q' = unfinished_tasks q.
Proof.
  unfold get. destruct (items q) as [|c0 rest]; [discriminate|].
  intros [= <- <-]. simpl. auto.
Qed.

Lemma task_done_items q q' :
  task_done q = Some q' →
  items q' = items q ∧ maxsize q' = maxsize q ∧
  0 < unfinished_tasks q ∧ unfinished_tasks q' = unfinished_tasks q - 1.
Proof.
  unfold task_done. destruct (unfinished_tasks q <=? 0) eqn:E; [discriminate|].
  apply Z.leb_gt in E. intros [= <-]. simpl. auto.
Qed.

Lemma task_done_positive q :
  0 < unfinished_tasks q → ∃ q', task_done q = Some q'.
Proof.
  intros H. unfold task_done.
  destruct (unfinished_tasks q <=? 0) eqn:E; [apply Z.leb_le in E; lia|].
  eauto.
Qed.

Lemma join_zero q : join q = Some tt ↔ unfinished_tasks q = 0.
Proof.
  unfold join. destruct (unfinished_tasks q =? 0) eqn:E.
  - apply Z.eqb_eq in E. tauto.
  - apply Z.eqb_neq in E. split; [discriminate | tauto].
Qed.

Lemma put_all_items l : ∀ q q',
  put_all q l = Some q' → items q' = items q ++ l.
Proof.
  induction l as [|c l IH]; intros q q' H; simpl in H.
  - injection H as <-. by rewrite app_nil_r.
  - destruct (put q c) as [q1|] eqn:E; [|discriminate]. simpl in H.
    apply IH in H. apply put_items in E as (E & _ & _).
    rewrite H, E, <- app_assoc. reflexivity.
Qed.

Lemma get_n_items l : ∀ q rest,
  items q = l ++ rest →
  ∃ q', get_n (length l) q = Some (l, q') ∧ items q' = rest.
Proof.
  induction l as [|c l IH]; intros q rest H; simpl.
  - eauto.
  - unfold get at 1. rewrite H. simpl.
    edestruct (IH {| maxsize := maxsize q; items := l ++ rest;
                     unfinished_tasks := unfinished_tasks q |} rest)
      as (q' & -> & Hq'); [reflexivity|].
    simpl. eauto.
Qed.

(** C4: when the puts of the customers [l] on a queue that holds no
    item all return, nothing running in between, the same number of
    gets after them return exactly [l], in the order of the puts, and
    leave the queue empty. *)
Theorem fifo_delivery (q0 : Queue) (l : list Customer) (q : Queue) :
  items q0 = [] →
  put_all q0 l = Some q →
  ∃ q', get_n (length l) q = Some (l, q') ∧ items q' = [].
Proof.
  intros H0 H. apply put_all_items in H. rewrite H0 in H. simpl in H.
  apply get_n_items. by rewrite app_nil_r.
Qed.

Lemma fifo_delivery_witness :
  ∃ q', get_n 3
          {| maxsize := 5;
             items := [generate_customer 0; generate_customer 1;
                       generate_customer 2];
             unfinished_tasks := 3 |}
        = Some ([generate_customer 0; generate_customer 1;
                 generate_customer 2], q') ∧ items q' = [].
Proof.
  apply (fifo_delivery (Queue_new 5)
           [generate_customer 0; generate_customer 1; generate_customer 2]);
    reflexivity.
Defined.

End QueueFacts.

(** ** One cashier *)

Ltac unpack :=
  repeat match goal with
         | H : ∃ _, _ |- _ => destruct H as [? H]
         | H : _ ∧ _ |- _ => destruct H as [? ?]
         end.

Section CashierFacts.

Lemma index_nat {A} (l : list A) (k : nat) :
  PyNum.index l (Z.of_nat k) = if decide (k < length l)%nat then Some k else None.
Proof.
  unfold PyNum.index.
  destruct (decide (k < length l)%nat) as [Hlt|Hge].
  - replace (0 <=? Z.of_nat k) with true by (symmetry; apply Z.leb_le; lia).
    replace (Z.of_nat k <? Z.of_nat (length l)) with true
      by (symmetry; apply Z.ltb_lt; lia).
    simpl. by rewrite Nat2Z.id.
  - replace (Z.of_nat k <? Z.of_nat (length l)) with false
      by (symmetry; apply Z.ltb_ge; lia).
    replace (Z.of_nat k <? 0) with false by (symmetry; apply Z.ltb_ge; lia).
    by rewrite !andb_false_r.
Qed.

Lemma add_at_nat (times : list float) (k : nat) (t : float) :
  PyNum.add_at times (Z.of_nat k) t
  = (v ← times !! k; Some (<[k := (v + t)%float]> times)).
Proof.
  unfold PyNum.add_at. rewrite index_nat.
  destruct (decide (k < length times)%nat) as [Hlt|Hge]; simpl; [done|].
  by rewrite (lookup_ge_None_2 times k) by lia.
Qed.

Lemma for_products_cases n cnt c ps q pt q' evs :
  for_products n cnt c ps q = (pt, q', evs) →
  (∃ p rest, ps = p :: rest ∧
     pt = AtSleep cnt c (PyNum.round2 (checkout_time p)) rest ∧
     q' = q ∧ evs = []) ∨
  (ps = [] ∧ task_done q = Some q' ∧ pt = AtGet cnt ∧ evs = [ETaskDone n]) ∨
  (ps = [] ∧ task_done q = None ∧ pt = Raised ∧ q' = q ∧ evs = [ERaise n]).
Proof.
  unfold for_products. destruct ps as [|p rest].
  - destruct (task_done q) as [q1|] eqn:E; intros [= <- <- <-];
      [right; left | right; right]; repeat split.
  - intros [= <- <- <-]. left. exists p, rest. repeat split.
Qed.

Lemma checkout_customer_cases me q times me' q' times' evs :
  checkout_customer me q times = Some (me', q', times', evs) →
  let n := cashier_number me in
  (must_cancel me = true ∧ done me = false ∧ me' = at_point me Cancelled ∧
   q' = q ∧ times' = times ∧ evs = [ECancelled n]) ∨
  (∃ cnt c q1 pt evs0,
     must_cancel me = false ∧ point me = AtGet cnt ∧ get q = Some (c, q1) ∧
     for_products n (cnt + 1) c (products c) q1 = (pt, q', evs0) ∧
     me' = at_point me pt ∧ times' = times ∧ evs = EGet n c :: evs0) ∨
  (∃ cnt c t rest pt evs0,
     must_cancel me = false ∧ point me = AtSleep cnt c t rest ∧
     PyNum.add_at times n t = Some times' ∧
     for_products n cnt c rest q = (pt, q', evs0) ∧
     me' = at_point me pt ∧ evs = EAdd n t :: evs0) ∨
  (∃ cnt c t rest,
     must_cancel me = false ∧ point me = AtSleep cnt c t rest ∧
     PyNum.add_at times n t = None ∧
     me' = at_point me Raised ∧ q' = q ∧ times' = times ∧ evs = [ERaise n]).
Proof.
  intros H n. unfold checkout_customer in H. fold n in H.
  destruct (done me) eqn:Hd; [discriminate|].
  destruct (must_cancel me) eqn:Hc.
  { injection H as <- <- <- <-. left. by repeat split. }
  right. destruct (point me) as [cnt|cnt c t rest| | |] eqn:Hp; try discriminate.
  - left. destruct (get q) as [[c q1]|] eqn:Hg; [|discriminate]. simpl in H.
    destruct (for_products _ _ _ _ _) as [[pt q2] evs0] eqn:Hf.
    injection H as <- <- <- <-. exists cnt, c, q1, pt, evs0. by repeat split.
  - right. destruct (PyNum.add_at times n t) as [times1|] eqn:Ha.
    + left. destruct (for_products _ _ _ _ _) as [[pt q2] evs0] eqn:Hf.
      injection H as <- <- <- <-. exists cnt, c, t, rest, pt, evs0.
      by repeat split.
    + right. injection H as <- <- <- <-. exists cnt, c, t, rest.
      by repeat split.
Qed.

Lemma checkout_customer_number me q times me' q' times' evs :
  checkout_customer me q times = Some (me', q', times', evs) →
  cashier_number me' = cashier_number me ∧ must_cancel me' = must_cancel me.
Proof.
  intros H. apply checkout_customer_cases in H.
  destruct H as [H|[H|[H|H]]]; unpack; subst; auto.
Qed.

(** A resumed cashier changes no slot but its own. *)
Lemma checkout_customer_frame me q times me' q' times' evs (i j : nat) :
  cashier_number me = Z.of_nat i → j ≠ i →
  checkout_customer me q times = Some (me', q', times', evs) →
  times' !! j = times !! j.
Proof.
  intros Hn Hne H. apply checkout_customer_cases in H. simpl in H.
  destruct H as [H|[H|[H|H]]]; unpack; subst; auto.
  rewrite Hn, add_at_nat in *.
  destruct (times !! i) as [v|]; simplify_eq/=.
  by rewrite list_lookup_insert_ne.
Qed.

(** A resumed cashier reads no slot but its own: what it does is the
    same for any two lists of times that agree on its slot. *)
Lemma checkout_customer_reads_own_slot me q times1 times2 (i : nat) :
  cashier_number me = Z.of_nat i →
  times1 !! i = times2 !! i →
  match checkout_customer me q times1, checkout_customer me q times2 with
  | Some (me1, q1, times1', evs1), Some (me2, q2, times2', evs2) =>
      me1 = me2 ∧ q1 = q2 ∧ evs1 = evs2 ∧ times1' !! i = times2' !! i
  | None, None => True
  | _, _ => False
  end.
Proof.
  intros Hn Hi. unfold checkout_customer.
  destruct (done me); [done|].
  destruct (must_cancel me); [done|].
  destruct (point me) as [cnt|cnt c t rest| | |]; try done.
  - destruct (get q) as [[c q1]|]; simpl; [|done].
    by destruct (for_products _ _ _ _ _) as [[pt q2] evs0].
  - rewrite Hn, !add_at_nat, <- Hi.
    destruct (times1 !! i) as [v|] eqn:Hv; simpl.
    2: { repeat split. by rewrite Hv. }
    destruct (for_products _ _ _ _ _) as [[pt q2] evs0].
    repeat split.
    rewrite !list_lookup_insert_eq; [done| |].
    + apply lookup_lt_is_Some. rewrite <- Hi. eauto.
    + apply lookup_lt_is_Some. eauto.
Qed.

Lemma checkout_customer_not_returned me q times me' q' times' evs :
  checkout_customer me q times = Some (me', q', times', evs) →
  point me' ≠ Returned.
Proof.
  intros H. apply checkout_customer_cases in H. simpl in H.
  destruct H as [H|[H|[H|H]]]; unpack; subst; simpl; try done;
    match goal with
    | Hf : for_products _ _ _ _ _ = _ |- _ =>
        apply for_products_cases in Hf;
        destruct Hf as [Hf|[Hf|Hf]]; unpack; subst; done
    end.
Qed.

End CashierFacts.

(** ** The runs of the program *)

Section Runs.

Lemma reachable_run s0 schedule : ∀ s s',
  reachable s0 s → run schedule s = Some s' → reachable s0 s'.
Proof.
  induction schedule as [|t schedule IH]; intros s s' Hs H; simpl in H.
  - by injection H as <-.
  - destruct (step t s) as [s1|] eqn:E; [|discriminate]. simpl in H.
    eapply IH; [|exact H]. by eapply reachable_step.
Qed.

Lemma reachable_ind_inv (P : State → Prop) s0 :
  P s0 →
  (∀ s t s', reachable s0 s → P s → step t s = Some s' → P s') →
  ∀ s, reachable s0 s → P s.
Proof. intros H0 Hstep s Hs. induction Hs; eauto. Qed.

Lemma holders_insert cs : ∀ k me me',
  cs !! k = Some me →
  (holders (<[k := me']> cs) + holding me = holders cs + holding me')%nat.
Proof.
  unfold holders.
  induction cs as [|c cs IH]; intros [|k] me me' H; simplify_eq/=; [lia|].
  specialize (IH _ _ me' H). lia.
Qed.

Lemma holders_zero cs k me :
  holders cs = 0%nat → cs !! k = Some me → holding me = 0%nat.
Proof.
  unfold holders. revert k.
  induction cs as [|c cs IH]; intros [|k] H0 H; simplify_eq/=; [lia|].
  apply (IH k); [lia | done].
Qed.

Lemma holders_cancel cs : holders (cancel <$> cs) = holders cs.
Proof.
  unfold holders. induction cs as [|c cs IH]; csimpl; [done|].
  rewrite IH. f_equal. unfold cancel, holding. by destruct (done c).
Qed.

Lemma start_cashier size total n k me :
  cashiers (start size total n) !! k = Some me →
  (k < n)%nat ∧ me = checkout_customer_task (Z.of_nat k).
Proof.
  simpl. rewrite list_lookup_fmap. intros H.
  destruct (seq 0 n !! k) as [i|] eqn:E; simplify_eq/=.
  apply lookup_seq in E as [-> ?]. auto.
Qed.

Lemma shape_inv_start size total n : shape_inv size total n (start size total n).
Proof.
  split; simpl; try done.
  - by rewrite length_replicate.
  - by rewrite length_fmap, length_seq.
  - intros k me H. by apply start_cashier in H as [_ ->].
  - intros k me H. by apply start_cashier in H as [_ ->].
  - unfold holders. induction (seq 0 n) as [|i l IH]; simpl; [done|].
    exact IH.
  - intros k me H. by apply start_cashier in H as [_ ->].
Qed.

Lemma cancel_spec c :
  cashier_number (cancel c) = cashier_number c ∧
  point (cancel c) = point c ∧
  (done c = false → must_cancel (cancel c) = true) ∧
  (must_cancel c = true → must_cancel (cancel c) = true).
Proof. unfold cancel. destruct (done c); simpl; repeat split; done. Qed.

Lemma customer_generation_cases p q p' q' evs :
  customer_generation p q = Some (p', q', evs) →
  total_customers p' = total_customers p ∧
  ((∃ n, ppoint p = AtLoop n ∧ n < total_customers p ∧
      ppoint p' = AtPut n (generate_customer n) ∧ q' = q ∧ evs = []) ∨
   (∃ n, ppoint p = AtLoop n ∧ total_customers p ≤ n ∧
      ppoint p' = Produced n ∧ q' = q ∧ evs = [EProducerReturn n]) ∨
   (∃ n c, ppoint p = AtPut n c ∧ put q c = Some q' ∧
      ppoint p' = AtLoop (n + 1) ∧ evs = [EPut c])).
Proof.
  unfold customer_generation.
  destruct (ppoint p) as [n|n c|r] eqn:Hp; [| |discriminate].
  - destruct (n <? total_customers p) eqn:E; intros [= <- <- <-]; simpl;
      (split; [done|]).
    + apply Z.ltb_lt in E. left. exists n. by repeat split.
    + apply Z.ltb_ge in E. right. left. exists n. by repeat split.
  - destruct (put q c) as [q1|] eqn:E; [|discriminate].
    intros [= <- <- <-]. simpl. split; [done|].
    right. right. exists n, c. by repeat split.
Qed.

(** What resuming a cashier does to the queue's accounting, when the
    counter covers the buffered items, the customers the other cashiers
    hold ([others]) and the customer it holds itself. *)
Lemma checkout_customer_accounting me q times me' q' times' evs k others :
  checkout_customer me q times = Some (me', q', times', evs) →
  cashier_number me = Z.of_nat k → (k < length times)%nat →
  must_cancel me = false →
  unfinished_tasks q
  = Z.of_nat (length (items q) + (others + holding me)) →
  point me' ≠ Raised ∧ point me' ≠ Cancelled ∧
  maxsize q' = maxsize q ∧ length times' = length times ∧
  unfinished_tasks q'
  = Z.of_nat (length (items q') + (others + holding me')).
Proof.
  intros H Hn Hk Hc Hu. apply checkout_customer_cases in H. simpl in H.
  destruct H as [H|[H|[H|H]]]; unpack; subst; [congruence| | |].
  - (* line 36: a customer is taken *)
    match goal with Hg : get _ = _ |- _ => apply get_items in Hg as (Hi & Hm & Hu') end.
    match goal with
    | Hf : for_products _ _ _ _ _ = _ |- _ =>
        apply for_products_cases in Hf; destruct Hf as [Hf|[Hf|Hf]]; unpack; subst
    end.
    + unfold holding in *. simpl. repeat split; try done.
      match goal with Hp : point me = _ |- _ => rewrite Hp in Hu end.
      rewrite Hu', Hu, Hi. simpl. lia.
    + match goal with Ht : task_done _ = _ |- _ =>
        apply task_done_items in Ht as (Hi' & Hm' & Hpos & Hu'') end.
      unfold holding in *. simpl. repeat split; try done; [congruence|].
      match goal with Hp : point me = _ |- _ => rewrite Hp in Hu end.
      rewrite Hu'', Hu', Hu, Hi', Hi. simpl. lia.
    + exfalso.
      match goal with Ht : task_done ?q = None |- _ =>
        destruct (task_done_positive q) as [? ?]; [|congruence] end.
      rewrite Hu', Hu, Hi. simpl. lia.
  - (* line 48: a time is added *)
    match goal with Ha : PyNum.add_at _ _ _ = _ |- _ =>
      rewrite Hn, add_at_nat in Ha;
      destruct (times !! k) as [v|]; simplify_eq/= end.
    rewrite length_insert.
    match goal with Hp : point me = _ |- _ =>
      unfold holding in Hu; rewrite Hp in Hu end.
    match goal with
    | Hf : for_products _ _ _ _ _ = _ |- _ =>
        apply for_products_cases in Hf; destruct Hf as [Hf|[Hf|Hf]]; unpack; subst
    end.
    + unfold holding. simpl. by repeat split.
    + match goal with Ht : task_done _ = _ |- _ =>
        apply task_done_items in Ht as (Hi' & Hm' & Hpos & Hu'') end.
      unfold holding. simpl. repeat split; try done.
      rewrite Hu'', Hu, Hi'. lia.
    + exfalso.
      match goal with Ht : task_done ?q = None |- _ =>
        destruct (task_done_positive q) as [? ?]; [|congruence] end.
      rewrite Hu. lia.
  - (* line 48 with an index out of range *)
    exfalso.
    match goal with Ha : PyNum.add_at _ _ _ = None |- _ =>
      rewrite Hn, add_at_nat in Ha end.
    destruct (lookup_lt_is_Some_2 times k Hk) as [v Hv].
    rewrite Hv in *. discriminate.
Qed.

Lemma shape_inv_step size total n s t s' :
  shape_inv size total n s → step t s = Some s' → shape_inv size total n s'.
Proof.
  intros [Hsize Htotal Htimes Hcs Hnum Hpts Hunf Hmain] Hstep.
  destruct t as [| |k]; simpl in Hstep.
  - (* main *)
    unfold main in Hstep.
    destruct (main_task s) as [| |r0 ts|] eqn:Hm; try discriminate.
    + destruct (ppoint (customer_producer s)) as [| |r] eqn:Hp; try discriminate.
      injection Hstep as <-. split; simpl; try done. split; eauto.
    + destruct (join _) as [[]|] eqn:Hj; [|discriminate]. simpl in Hstep.
      apply join_zero in Hj.
      destruct Hmain as [Hnc [r Hr]]. rewrite Hr in Hstep.
      injection Hstep as <-.
      assert (Hl : ∀ k me, (cancel <$> cashiers s) !! k = Some me →
                ∃ c, cashiers s !! k = Some c ∧ me = cancel c).
      { intros k me. rewrite list_lookup_fmap.
        destruct (cashiers s !! k) as [c|]; intros; simplify_eq/=; eauto. }
      split; simpl; try done.
      * by rewrite length_fmap.
      * intros k me H. apply Hl in H as (c & Hc & ->).
        destruct (cancel_spec c) as (-> & _). eauto.
      * intros k me H. apply Hl in H as (c & Hc & ->).
        destruct (cancel_spec c) as (_ & -> & _ & _).
        destruct (Hpts _ _ Hc) as (? & ? & Hcc).
        repeat split; try done.
        intros Hcan. apply Hcc in Hcan. rewrite (Hnc _ _ Hc) in Hcan. done.
      * by rewrite holders_cancel.
      * repeat split; try done.
        intros k me H. apply Hl in H as (c & Hc & ->).
        destruct (cancel_spec c) as (_ & _ & Hd & _). apply Hd.
        destruct (Hpts _ _ Hc) as (? & ? & Hcc). unfold done.
        destruct (point c) eqn:Hp; try done.
        specialize (Hcc eq_refl). rewrite (Hnc _ _ Hc) in Hcc. done.
  - (* the producer *)
    destruct (customer_generation _ _) as [[[p q] evs]|] eqn:Hg; [|discriminate].
    injection Hstep as <-.
    apply customer_generation_cases in Hg as [Htot Hg].
    assert (Hnp : ∀ r, ppoint (customer_producer s) ≠ Produced r).
    { intros r Hr. destruct Hg as [Hg|[Hg|Hg]]; unpack; congruence. }
    split; simpl; try done.
    + destruct Hg as [Hg|[Hg|Hg]]; unpack; subst; try done.
      match goal with Hp : put _ _ = _ |- _ => apply put_items in Hp as (_ & -> & _) end.
      done.
    + congruence.
    + destruct Hg as [Hg|[Hg|Hg]]; unpack; subst; try done.
      match goal with Hp : put _ _ = _ |- _ => apply put_items in Hp as (-> & _ & ->) end.
      rewrite Hunf, length_app. simpl. lia.
    + destruct (main_task s) as [| |r0 ts|]; try done.
      * destruct Hmain as [_ [r Hr]]. by apply Hnp in Hr.
      * destruct Hmain as [Hr _]. by apply Hnp in Hr.
  - (* the cashier k *)
    destruct (cashiers s !! k) as [me|] eqn:Hme; [|discriminate]. simpl in Hstep.
    destruct (checkout_customer _ _ _) as [[[[me' q] times] evs]|] eqn:Hc;
      [|discriminate].
    injection Hstep as <-.
    pose proof (checkout_customer_number _ _ _ _ _ _ _ Hc) as [Hn' Hf'].
    pose proof (holders_insert _ _ _ me' Hme) as Hh.
    assert (Hk : (k < length (cashier_times s))%nat).
    { rewrite Htimes, <- Hcs. by eapply lookup_lt_Some. }
    assert (Hlook : ∀ j c, <[k := me']> (cashiers s) !! j = Some c →
              (j = k ∧ c = me') ∨ (j ≠ k ∧ cashiers s !! j = Some c)).
    { intros j c H. apply list_lookup_insert_Some in H.
      destruct H as [(-> & -> & _)|(? & ?)]; auto. }
    destruct (must_cancel me) eqn:Hmc.
    + (* the cashier is cancelled: main has finished *)
      apply checkout_customer_cases in Hc. simpl in Hc.
      destruct Hc as [Hc|[Hc|[Hc|Hc]]]; unpack; subst; try congruence.
      destruct (main_task s) as [| |r0 ts|] eqn:Hm; try done.
      { by rewrite (Hmain _ _ Hme) in Hmc. }
      { destruct Hmain as [Hmain _]. by rewrite (Hmain _ _ Hme) in Hmc. }
      destruct Hmain as (Hr & Hts & Hzero & Hall).
      assert (holding me = 0%nat) as Hhold.
      { eapply holders_zero; [|exact Hme]. lia. }
      split; simpl; try done.
      * by rewrite length_insert.
      * intros j c Hjc. apply Hlook in Hjc as [[-> ->]|[? Hjc']]; simpl; eauto.
      * intros j c Hjc. apply Hlook in Hjc as [[-> ->]|[? Hjc']]; simpl; eauto.
      * unfold holding at 2 in Hh. simpl in Hh. lia.
      * repeat split; try done.
        intros j c Hjc. apply Hlook in Hjc as [[-> ->]|[? Hjc']]; simpl; eauto.
    + (* the cashier goes on *)
      assert (Hle : (holding me ≤ holders (cashiers s))%nat).
      { clear -Hme. unfold holders. revert k Hme.
        induction (cashiers s) as [|c cs IH]; intros [|k] H; simplify_eq/=; [lia|].
        specialize (IH _ H). lia. }
      destruct (checkout_customer_accounting _ _ _ _ _ _ _ k
                  (holders (cashiers s) - holding me) Hc)
        as (Hnr & Hncan & Hmax & Hlen & Hu); eauto.
      { rewrite Hunf. f_equal. lia. }
      split; simpl; try done.
      * congruence.
      * congruence.
      * by rewrite length_insert.
      * intros j c Hjc. apply Hlook in Hjc as [[-> ->]|[? Hjc']]; simpl; eauto.
        rewrite Hn'. eauto.
      * intros j c Hjc. apply Hlook in Hjc as [[-> ->]|[? Hjc']]; simpl; eauto.
        repeat split; try done.
        apply checkout_customer_not_returned in Hc. done.
      * rewrite Hu. f_equal. lia.
      * assert (Hflags : ∀ j c, <[k := me']> (cashiers s) !! j = Some c →
                  ∃ c0, cashiers s !! j = Some c0 ∧ must_cancel c = must_cancel c0).
        { intros j c Hjc. apply Hlook in Hjc as [[-> ->]|[? Hjc']]; simpl; eauto. }
        destruct (main_task s) as [| |r0 ts|] eqn:Hm; try done.
        -- intros j c Hjc. apply Hflags in Hjc as (c0 & H0 & ->). eauto.
        -- destruct Hmain as [Hmain Hr]. split; [|done].
           intros j c Hjc. apply Hflags in Hjc as (c0 & H0 & ->). eauto.
        -- destruct Hmain as (_ & _ & _ & Hall).
           rewrite (Hall _ _ Hme) in Hmc. done.
Qed.

Lemma shape_inv_reachable size total n s :
  reachable (start size total n) s → shape_inv size total n s.
Proof.
  apply reachable_ind_inv.
  - apply shape_inv_start.
  - intros ? ? ? _. apply shape_inv_step.
Qed.

(** *** Histories *)

Lemma count_app f a b : count f (a ++ b) = (count f a + count f b)%nat.
Proof. unfold count. by rewrite List.filter_app, length_app. Qed.

Lemma put_log_app a b : put_log (a ++ b) = put_log a ++ put_log b.
Proof. apply omap_app. Qed.

Lemma get_log_app a b : get_log (a ++ b) = get_log a ++ get_log b.
Proof. apply omap_app. Qed.

Lemma main_events_silent evs :
  Forall main_event evs →
  put_log evs = [] ∧ get_log evs = [] ∧
  count is_put evs = 0%nat ∧ count is_task_done evs = 0%nat ∧
  count is_get evs = 0%nat ∧
  ∀ i, count (is_get_of i) evs = 0%nat ∧ count (is_add_of i) evs = 0%nat ∧
       count (is_task_done_of i) evs = 0%nat.
Proof.
  induction 1 as [|e evs He _ IH]; [done|].
  destruct IH as (? & ? & ? & ? & ? & Hi).
  destruct e; try done; repeat split; try done; apply Hi.
Qed.

Lemma main_frame s s' :
  main s = Some s' →
  customer_queue s' = customer_queue s ∧
  customer_producer s' = customer_producer s ∧
  cashier_times s' = cashier_times s ∧
  length (cashiers s') = length (cashiers s) ∧
  ∃ evs, trace s' = trace s ++ evs ∧ Forall main_event evs.
Proof.
  unfold main.
  assert (Hc : ∀ cs : list CashierTask,
            Forall main_event ((λ c, ECancel (cashier_number c)) <$> cs)).
  { intros cs. apply Forall_fmap, Forall_true. done. }
  destruct (main_task s); try discriminate.
  - destruct (ppoint (customer_producer s)); try discriminate.
    intros [= <-]. simpl. repeat split. exists []. by rewrite app_nil_r.
  - destruct (join _); [|discriminate]. simpl.
    destruct (ppoint (customer_producer s)); intros [= <-]; simpl;
      rewrite length_fmap; repeat split; eexists; (split; [reflexivity|]);
      repeat first [apply Forall_cons; split; [done|]
                   | apply Forall_app; split | apply Hc | apply Forall_nil_2 ].
Qed.

Lemma checkout_customer_history me q times me' q' times' evs :
  checkout_customer me q times = Some (me', q', times', evs) →
  put_log evs = [] ∧ count is_put evs = 0%nat ∧
  items q = get_log evs ++ items q' ∧
  unfinished_tasks q'
  = unfinished_tasks q - Z.of_nat (count is_task_done evs).
Proof.
  intros H. apply checkout_customer_cases in H. simpl in H.
  destruct H as [H|[H|[H|H]]]; unpack; subst; unfold count; simpl;
    try (repeat split; try done; lia);
    repeat match goal with
    | Hg : get _ = _ |- _ => apply get_items in Hg as (? & ? & ?)
    | Hf : for_products _ _ _ _ _ = _ |- _ =>
        apply for_products_cases in Hf; destruct Hf as [Hf|[Hf|Hf]]; unpack; subst
    | Ht : task_done _ = Some _ |- _ =>
        apply task_done_items in Ht as (? & ? & ? & ?)
    end; simpl; repeat split; try done; try congruence; try lia.
Qed.

Lemma generated_S m :
  generated (S m) = generated m ++ [generate_customer (Z.of_nat m)].
Proof. unfold generated. by rewrite seq_S, fmap_app. Qed.

Lemma history_inv_start size total n : history_inv total (start size total n).
Proof.
  split; simpl; try done.
  - by exists 0%nat.
  - intros ? [= <-]. lia.
Qed.

Lemma history_inv_step total s t s' :
  total_customers (customer_producer s) = total →
  history_inv total s → step t s = Some s' → history_inv total s'.
Proof.
  intros Htot [(m & Hm & Hlog) Hput Hloop Hprod Hfifo Hunf] Hstep.
  destruct t as [| |k]; simpl in Hstep.
  - apply main_frame in Hstep as (Hq & Hp & _ & _ & evs & Htr & Hev).
    apply main_events_silent in Hev as (Hpl & Hgl & Hcp & Hcd & _).
    split; rewrite ?Hq, ?Hp, ?Htr, ?put_log_app, ?get_log_app, ?count_app,
             ?Hpl, ?Hgl, ?Hcp, ?Hcd, ?app_nil_r, ?Nat.add_0_r; eauto.
  - destruct (customer_generation _ _) as [[[p q] evs]|] eqn:Hg; [|discriminate].
    injection Hstep as <-.
    apply customer_generation_cases in Hg as [_ Hg]. rewrite Htot in Hg.
    unfold produced_so_far in Hm.
    destruct Hg as [(n0 & Hp & Hlt & Hp' & -> & ->)
                   |[(n0 & Hp & Hge & Hp' & -> & ->)
                    |(n0 & c0 & Hp & Hq & Hp' & ->)]];
      rewrite Hp in Hm.
    + split; simpl; rewrite ?app_nil_r, ?Hp'; try done.
      * exists m. unfold produced_so_far. by rewrite Hp'.
      * intros n c ?. by simplify_eq.
    + split; simpl; rewrite ?put_log_app, ?get_log_app, ?count_app, ?Hp';
        simpl; rewrite ?app_nil_r, ?Nat.add_0_r; try done.
      * exists m. unfold produced_so_far. by rewrite Hp'.
      * intros r ?. simplify_eq. apply Hloop in Hp. lia.
    + destruct (Hput _ _ Hp) as [-> Hlt].
      apply put_items in Hq as (Hi & _ & Hu).
      split; simpl; rewrite ?put_log_app, ?get_log_app, ?count_app, ?Hp'; simpl;
        rewrite ?app_nil_r; try done.
      * exists (S m). unfold produced_so_far. rewrite Hp'.
        split; [lia|]. rewrite generated_S, Hlog. by subst.
      * intros n ?. simplify_eq. lia.
      * by rewrite Hi, Hfifo, app_assoc.
      * rewrite Hu, Hunf.
        change (count is_put [EPut (generate_customer n0)]) with 1%nat.
        change (count is_task_done [EPut (generate_customer n0)]) with 0%nat.
        lia.
  - destruct (cashiers s !! k) as [me|] eqn:Hme; [|discriminate]. simpl in Hstep.
    destruct (checkout_customer _ _ _) as [[[[me' q] times] evs]|] eqn:Hc;
      [|discriminate].
    injection Hstep as <-.
    apply checkout_customer_history in Hc as (Hpl & Hcp & Hi & Hu).
    split; simpl; rewrite ?put_log_app, ?get_log_app, ?count_app,
      ?Hpl, ?Hcp, ?app_nil_r, ?Nat.add_0_r; eauto.
    + by rewrite Hfifo, Hi, app_assoc.
    + rewrite Hu, Hunf. lia.
Qed.

Lemma history_inv_reachable size total n s :
  reachable (start size total n) s → history_inv total s.
Proof.
  intros Hs. induction Hs as [|s t s' Hs IH Hstep].
  - apply history_inv_start.
  - eapply history_inv_step; [|exact IH|exact Hstep].
    by apply shape_inv_reachable in Hs as [].
Qed.

(** *** The slots *)

Local Arguments Nat.mul : simpl never.

Lemma catalog_times_length : length catalog_times = 4%nat.
Proof. reflexivity. Qed.

(** Rounding to two places leaves the times of the catalog as they are. *)
Lemma catalog_times_values :
  catalog_times = [1; 0.4; 0.4; 0.2]%float.
Proof. vm_compute. reflexivity. Qed.

Lemma generate_customer_catalog n : catalog_customer (generate_customer n).
Proof. reflexivity. Qed.

Lemma accumulated_S adds g before t rest :
  adds = (4 * g + length before)%nat →
  catalog_times = before ++ t :: rest →
  accumulated (S adds) = (accumulated adds + t)%float.
Proof.
  intros -> Hc. cbn [accumulated]. f_equal.
  pose proof catalog_times_length as Hl. rewrite Hc, length_app in Hl.
  simpl in Hl.
  replace ((4 * g + length before) mod 4)%nat with (length before).
  - rewrite Hc, app_nth2 by lia. by rewrite Nat.sub_diag.
  - rewrite Nat.add_comm, Nat.mul_comm, Nat.Div0.mod_add.
    symmetry. apply Nat.mod_small. lia.
Qed.

Lemma count_one f e : count f [e] = if f e then 1%nat else 0%nat.
Proof. unfold count. simpl. by destruct (f e). Qed.

Lemma count_cons f e evs :
  count f (e :: evs) = ((if f e then 1 else 0) + count f evs)%nat.
Proof. unfold count. simpl. by destruct (f e). Qed.

(** What resuming the cashier [k] does to its slot and its history. *)
Lemma checkout_customer_slot me q times me' q' times' evs k adds gets :
  checkout_customer me q times = Some (me', q', times', evs) →
  cashier_number me = Z.of_nat k →
  (must_cancel me = true → holding me = 0%nat) →
  point me' ≠ Raised →
  Forall catalog_customer (items q) →
  times !! k = Some (accumulated adds) →
  point_inv (point me) adds gets →
  let adds' := (adds + count (is_add_of (Z.of_nat k)) evs)%nat in
  let gets' := (gets + count (is_get_of (Z.of_nat k)) evs)%nat in
  times' !! k = Some (accumulated adds') ∧
  point_inv (point me') adds' gets' ∧
  Forall catalog_customer (items q').
Proof.
  intros H Hn Hcan Hnr Hitems Hslot Hpt adds' gets'. subst adds' gets'.
  apply checkout_customer_cases in H. simpl in H. rewrite Hn in H.
  destruct H as [(Hmc & Hd & -> & -> & -> & ->)
                |[(cnt & c & q1 & pt & evs0 & Hmc & Hp & Hg & Hf & -> & -> & ->)
                 |[(cnt & c & t & rest & pt & evs0 & Hmc & Hp & Ha & Hf & -> & ->)
                  |(cnt & c & t & rest & Hmc & Hp & Ha & -> & -> & -> & ->)]]];
    simpl in *; try done.
  - (* cancelled: the cashier holds no customer *)
    rewrite !count_one. simpl. rewrite !Nat.add_0_r.
    specialize (Hcan Hmc). unfold holding, done in *.
    destruct (point me); try done. simpl in *.
    repeat split; try tauto; lia.
  - (* line 36 *)
    rewrite Hp in Hpt. destruct Hpt as [-> ->].
    apply get_items in Hg as (Hi & _ & _). rewrite Hi in Hitems.
    apply Forall_cons in Hitems as [Hc Hitems].
    apply for_products_cases in Hf.
    destruct Hf as [(p & rest & Hps & -> & -> & ->)
                   |[(Hps & _)|(_ & _ & -> & _)]]; [| |done].
    + rewrite !count_one. simpl. rewrite Z.eqb_refl, !Nat.add_0_r.
      repeat split; try done.
      exists gets, []. repeat split; [lia | simpl; lia | lia |].
      unfold catalog_customer in Hc. by rewrite Hps in Hc.
    + unfold catalog_customer in Hc. rewrite Hps in Hc. discriminate.
  - (* line 48 *)
    rewrite Hp in Hpt. destruct Hpt as (g & before & -> & -> & -> & Hcat).
    rewrite add_at_nat, Hslot in Ha. simpl in Ha. injection Ha as <-.
    assert (Hk : (k < length times)%nat) by (by eapply lookup_lt_Some).
    rewrite list_lookup_insert_eq by done.
    rewrite <- (accumulated_S _ g before t (take_times rest)) by done.
    pose proof catalog_times_length as Hl. rewrite Hcat, length_app in Hl.
    simpl in Hl.
    apply for_products_cases in Hf.
    destruct Hf as [(p & rest' & -> & -> & -> & ->)
                   |[(-> & Htd & -> & ->)|(_ & _ & -> & _)]]; [| |done].
    + rewrite !count_one. simpl. rewrite Z.eqb_refl, !Nat.add_0_r, Nat.add_1_r.
      repeat split; try done.
      exists g, (before ++ [t]). rewrite length_app. simpl.
      repeat split; [lia|]. by rewrite <- app_assoc.
    + rewrite !count_cons. unfold count. simpl. rewrite Z.eqb_refl. simpl.
      rewrite !Nat.add_0_r, Nat.add_1_r.
      apply task_done_items in Htd as (Hi' & _).
      repeat split; try done; [simpl in Hl; lia | by rewrite Hi'].
Qed.

Lemma main_cashiers s s' k me' :
  main s = Some s' → cashiers s' !! k = Some me' →
  ∃ me, cashiers s !! k = Some me ∧ point me' = point me ∧
        cashier_number me' = cashier_number me.
Proof.
  unfold main.
  destruct (main_task s); try discriminate.
  - destruct (ppoint (customer_producer s)); try discriminate.
    intros [= <-]. simpl. eauto.
  - destruct (join _); [|discriminate]. simpl.
    destruct (ppoint (customer_producer s)); intros [= <-]; simpl;
      rewrite list_lookup_fmap;
      destruct (cashiers s !! k) as [c|]; intros; simplify_eq/=;
      destruct (cancel_spec c) as (-> & -> & _); eauto.
Qed.

(** A cancelled cashier holds no customer. *)
Lemma cancelled_idle size total n s k me :
  shape_inv size total n s → cashiers s !! k = Some me →
  must_cancel me = true → holding me = 0%nat.
Proof.
  intros [_ _ _ _ _ _ Hunf Hmain] Hme Hmc.
  destruct (main_task s) as [| |r ts|]; try done.
  - by rewrite (Hmain _ _ Hme) in Hmc.
  - destruct Hmain as [Hmain _]. by rewrite (Hmain _ _ Hme) in Hmc.
  - destruct Hmain as (_ & _ & Hz & _).
    eapply holders_zero; [|exact Hme]. lia.
Qed.

Lemma checkout_customer_events me q times me' q' times' evs k :
  checkout_customer me q times = Some (me', q', times', evs) →
  cashier_number me = Z.of_nat k →
  Forall (own_event k) evs.
Proof.
  intros H Hn. apply checkout_customer_cases in H. simpl in H. rewrite Hn in H.
  destruct H as [H|[H|[H|H]]]; unpack; subst;
    repeat match goal with
    | Hf : for_products _ _ _ _ _ = _ |- _ =>
        apply for_products_cases in Hf; destruct Hf as [Hf|[Hf|Hf]]; unpack; subst
    end; by repeat constructor.
Qed.

Lemma other_cashier_counts evs (k j : nat) :
  Forall (own_event k) evs →
  j ≠ k →
  count (is_add_of (Z.of_nat j)) evs = 0%nat ∧
  count (is_get_of (Z.of_nat j)) evs = 0%nat ∧
  count (is_task_done_of (Z.of_nat j)) evs = 0%nat.
Proof.
  intros H Hne. induction H as [|e evs He _ (IHa & IHg & IHd)]; [done|].
  rewrite !count_cons, IHa, IHg, IHd.
  assert ((Z.of_nat j =? Z.of_nat k) = false) as Hjk by (apply Z.eqb_neq; lia).
  destruct e; simpl in *; try done; subst; by rewrite ?Hjk.
Qed.

Lemma slot_inv_start size total n : slot_inv (start size total n).
Proof.
  split; simpl; try done.
  intros k me H. apply (start_cashier size total) in H as [Hk ->].
  split; simpl; [|done]. by apply lookup_replicate_2.
Qed.

Lemma slot_inv_step size total n s t s' :
  shape_inv size total n s → shape_inv size total n s' →
  slot_inv s → step t s = Some s' → slot_inv s'.
Proof.
  intros Hsh Hsh' [Hcs Hitems Hput Hevs] Hstep.
  destruct t as [| |k]; simpl in Hstep.
  - (* main *)
    pose proof (main_frame _ _ Hstep) as (Hq & Hp & Ht & Hlen & evs & Htr & Hev).
    pose proof (main_events_silent _ Hev) as (_ & _ & _ & _ & _ & Hcount).
    split; rewrite ?Hq, ?Hp, ?Htr, ?Hlen; try done.
    + intros k me' Hme'.
      destruct (main_cashiers _ _ _ _ Hstep Hme') as (me & Hme & Hpt & _).
      destruct (Hcs _ _ Hme) as [Hslot Hpi].
      unfold slot_inv_at. rewrite Htr, Ht, !count_app, Hpt.
      destruct (Hcount (Z.of_nat k)) as (-> & -> & _). by rewrite !Nat.add_0_r.
    + apply Forall_app. split; [done|].
      eapply Forall_impl; [exact Hev|]. by intros [].
  - (* the producer *)
    destruct (customer_generation _ _) as [[[p q] evs]|] eqn:Hg; [|discriminate].
    injection Hstep as <-.
    apply customer_generation_cases in Hg as [_ Hg].
    assert (Hsilent : ∀ i, count (is_add_of i) evs = 0%nat ∧
                           count (is_get_of i) evs = 0%nat).
    { destruct Hg as [Hg|[Hg|Hg]]; unpack; by subst. }
    assert (Hbelow : Forall (get_event_below (length (cashiers s))) evs).
    { destruct Hg as [Hg|[Hg|Hg]]; unpack; subst; by repeat constructor. }
    split; simpl.
    + intros k me Hme. destruct (Hcs _ _ Hme) as [Hslot Hpi].
      unfold slot_inv_at. simpl. rewrite !count_app.
      destruct (Hsilent (Z.of_nat k)) as [-> ->]. by rewrite !Nat.add_0_r.
    + destruct Hg as [(n0 & Hp & Hlt & Hp' & -> & ->)
                     |[(n0 & Hp & Hge & Hp' & -> & ->)
                      |(n0 & c0 & Hp & Hq & Hp' & ->)]]; try done.
      apply put_items in Hq as (-> & _). apply Forall_app. split; [done|].
      repeat constructor. eauto.
    + intros n1 c1 Hp1.
      destruct Hg as [(n0 & Hp & Hlt & Hp' & -> & ->)
                     |[(n0 & Hp & Hge & Hp' & -> & ->)
                      |(n0 & c0 & Hp & Hq & Hp' & ->)]]; try congruence.
      rewrite Hp' in Hp1. injection Hp1 as <- <-.
      apply generate_customer_catalog.
    + by apply Forall_app.
  - (* the cashier k *)
    destruct (cashiers s !! k) as [me|] eqn:Hme; [|discriminate]. simpl in Hstep.
    destruct (checkout_customer _ _ _) as [[[[me' q] times] evs]|] eqn:Hc;
      [|discriminate].
    injection Hstep as <-.
    destruct (Hcs _ _ Hme) as [Hslot Hpi].
    assert (Hk : (k < length (cashiers s))%nat) by (by eapply lookup_lt_Some).
    assert (Hnr : point me' ≠ Raised).
    { destruct Hsh' as [_ _ _ _ _ Hpts _ _]. simpl in Hpts.
      eapply (Hpts k). by apply list_lookup_insert_eq. }
    destruct (checkout_customer_slot _ _ _ _ _ _ _ k
                (count (is_add_of (Z.of_nat k)) (trace s))
                (count (is_get_of (Z.of_nat k)) (trace s)) Hc)
      as (Hslot' & Hpi' & Hitems'); try done.
    { exact (inv_number _ _ _ _ Hsh _ _ Hme). }
    { exact (cancelled_idle _ _ _ _ _ _ Hsh Hme). }
    pose proof (checkout_customer_events _ _ _ _ _ _ _ k Hc
                  (inv_number _ _ _ _ Hsh _ _ Hme)) as Hmine.
    split; simpl; try done.
    + intros j c Hj. apply list_lookup_insert_Some in Hj.
      unfold slot_inv_at. simpl. rewrite !count_app.
      destruct Hj as [(<- & <- & _)|(Hne & Hj)]; [done|].
      destruct (other_cashier_counts _ _ j Hmine) as (-> & -> & _); [done|].
      rewrite !Nat.add_0_r.
      destruct (Hcs _ _ Hj) as [Hslotj Hpij]. split; [|done].
      rewrite <- Hslotj.
      eapply checkout_customer_frame; [|done|exact Hc].
      exact (inv_number _ _ _ _ Hsh _ _ Hme).
    + rewrite length_insert. apply Forall_app. split; [done|].
      eapply Forall_impl; [exact Hmine|].
      intros [] He; try done. simpl. eauto.
Qed.

Lemma slot_inv_reachable size total n s :
  reachable (start size total n) s → slot_inv s.
Proof.
  intros Hs. induction Hs as [|s t s' Hs IH Hstep].
  - apply slot_inv_start.
  - eapply slot_inv_step; [| |exact IH|exact Hstep];
      apply shape_inv_reachable; [done|].
    by eapply reachable_step.
Qed.

(** *** Every customer taken is marked done once *)

Lemma producer_events_silent p q p' q' evs :
  customer_generation p q = Some (p', q', evs) →
  count is_get evs = 0%nat ∧
  ∀ i, count (is_add_of i) evs = 0%nat ∧ count (is_get_of i) evs = 0%nat ∧
       count (is_task_done_of i) evs = 0%nat.
Proof.
  intros Hg. apply customer_generation_cases in Hg as [_ Hg].
  destruct Hg as [Hg|[Hg|Hg]]; unpack; by subst.
Qed.

Lemma checkout_customer_dones me q times me' q' times' evs k :
  checkout_customer me q times = Some (me', q', times', evs) →
  cashier_number me = Z.of_nat k →
  (must_cancel me = true → holding me = 0%nat) →
  point me' ≠ Raised →
  (count (is_get_of (Z.of_nat k)) evs + holding me
   = count (is_task_done_of (Z.of_nat k)) evs + holding me')%nat.
Proof.
  intros H Hn Hcan Hnr. apply checkout_customer_cases in H. simpl in H.
  rewrite Hn in H.
  destruct H as [(Hmc & Hd & -> & -> & -> & ->)
                |[(cnt & c & q1 & pt & evs0 & Hmc & Hp & Hg & Hf & -> & -> & ->)
                 |[(cnt & c & t & rest & pt & evs0 & Hmc & Hp & Ha & Hf & -> & ->)
                  |(cnt & c & t & rest & Hmc & Hp & Ha & -> & -> & -> & ->)]]];
    simpl in *; try done.
  - rewrite (Hcan Hmc). done.
  - apply for_products_cases in Hf.
    destruct Hf as [Hf|[Hf|Hf]]; unpack; subst; try done;
      rewrite !count_cons; unfold count, holding; rewrite Hp; simpl;
      rewrite ?Z.eqb_refl; done.
  - apply for_products_cases in Hf.
    destruct Hf as [Hf|[Hf|Hf]]; unpack; subst; try done;
      rewrite !count_cons; unfold count, holding; rewrite Hp; simpl;
      rewrite ?Z.eqb_refl; done.
Qed.

Lemma done_inv_step size total n s t s' :
  shape_inv size total n s → shape_inv size total n s' →
  done_inv s → step t s = Some s' → done_inv s'.
Proof.
  intros Hsh Hsh' Hinv Hstep. unfold done_inv.
  destruct t as [| |k]; simpl in Hstep.
  - pose proof (main_frame _ _ Hstep) as (_ & _ & _ & _ & evs & Htr & Hev).
    pose proof (main_events_silent _ Hev) as (_ & _ & _ & _ & _ & Hcount).
    intros k me' Hme'.
    destruct (main_cashiers _ _ _ _ Hstep Hme') as (me & Hme & Hpt & _).
    rewrite Htr, !count_app. destruct (Hcount (Z.of_nat k)) as (-> & _ & ->).
    rewrite !Nat.add_0_r, (Hinv _ _ Hme). unfold holding. by rewrite Hpt.
  - destruct (customer_generation _ _) as [[[p q] evs]|] eqn:Hg; [|discriminate].
    injection Hstep as <-. simpl. intros k me Hme.
    apply producer_events_silent in Hg as [_ Hg].
    rewrite !count_app. destruct (Hg (Z.of_nat k)) as (_ & -> & ->).
    rewrite !Nat.add_0_r. eauto.
  - destruct (cashiers s !! k) as [me|] eqn:Hme; [|discriminate]. simpl in Hstep.
    destruct (checkout_customer _ _ _) as [[[[me' q] times] evs]|] eqn:Hc;
      [|discriminate].
    injection Hstep as <-. simpl.
    pose proof (inv_number _ _ _ _ Hsh _ _ Hme) as Hn.
    pose proof (checkout_customer_events _ _ _ _ _ _ _ k Hc Hn) as Hmine.
    intros j c Hj. apply list_lookup_insert_Some in Hj. rewrite !count_app.
    destruct Hj as [(<- & <- & _)|(Hne & Hj)].
    + assert (Hnr : point me' ≠ Raised).
      { destruct Hsh' as [_ _ _ _ _ Hpts _ _]. simpl in Hpts.
        eapply (Hpts k). apply list_lookup_insert_eq. by eapply lookup_lt_Some. }
      pose proof (checkout_customer_dones _ _ _ _ _ _ _ k Hc Hn
                    (cancelled_idle _ _ _ _ _ _ Hsh Hme) Hnr).
      pose proof (Hinv _ _ Hme). lia.
    + destruct (other_cashier_counts _ _ j Hmine) as (_ & -> & ->); [done|].
      rewrite !Nat.add_0_r. eauto.
Qed.

Lemma done_inv_reachable size total n s :
  reachable (start size total n) s → done_inv s.
Proof.
  intros Hs. induction Hs as [|s t s' Hs IH Hstep].
  - intros k me H. by apply (start_cashier size total) in H as [_ ->].
  - eapply done_inv_step; [| |exact IH|exact Hstep];
      apply shape_inv_reachable; [done|].
    by eapply reachable_step.
Qed.

End Runs.

(** ** Every run ends, and ends well *)

Section Termination.

Local Arguments Nat.mul : simpl never.

Lemma weight_insert cs : ∀ k me me',
  cs !! k = Some me →
  (sum_list_with cashier_weight (<[k := me']> cs) + cashier_weight me
   = sum_list_with cashier_weight cs + cashier_weight me')%nat.
Proof.
  induction cs as [|c cs IH]; intros [|k] me me' H; simplify_eq/=; [lia|].
  specialize (IH _ _ me' H). lia.
Qed.

Lemma weight_cancel cs :
  sum_list_with cashier_weight (cancel <$> cs) = sum_list_with cashier_weight cs.
Proof.
  induction cs as [|c cs IH]; csimpl; [done|].
  rewrite IH. f_equal. unfold cancel, cashier_weight. by destruct (done c).
Qed.

Lemma checkout_customer_weight me q times me' q' times' evs :
  checkout_customer me q times = Some (me', q', times', evs) →
  (sum_list_with customer_weight (items q') + cashier_weight me'
   < sum_list_with customer_weight (items q) + cashier_weight me)%nat.
Proof.
  intros H. apply checkout_customer_cases in H. simpl in H.
  destruct H as [(Hmc & Hd & -> & -> & -> & ->)
                |[(cnt & c & q1 & pt & evs0 & Hmc & Hp & Hg & Hf & -> & -> & ->)
                 |[(cnt & c & t & rest & pt & evs0 & Hmc & Hp & Ha & Hf & -> & ->)
                  |(cnt & c & t & rest & Hmc & Hp & Ha & -> & -> & -> & ->)]]];
    unfold cashier_weight; simpl.
  - unfold done in Hd. destruct (point me); try done; lia.
  - rewrite Hp. apply get_items in Hg as (-> & _).
    apply for_products_cases in Hf.
    destruct Hf as [(p & rest & Hps & -> & -> & ->)
                   |[(Hps & Htd & -> & ->)|(Hps & _ & -> & -> & _)]];
      simpl; unfold customer_weight; rewrite Hps; simpl; try lia.
    apply task_done_items in Htd as (-> & _). lia.
  - rewrite Hp. apply for_products_cases in Hf.
    destruct Hf as [(p & rest' & -> & -> & -> & ->)
                   |[(-> & Htd & -> & ->)|(-> & _ & -> & -> & _)]];
      simpl; try lia.
    apply task_done_items in Htd as (-> & _). lia.
  - rewrite Hp. lia.
Qed.

(** Every turn of the event loop makes the weight smaller. *)
Lemma step_weight t s s' : step t s = Some s' → (weight s' < weight s)%nat.
Proof.
  intros Hstep. unfold weight. destruct t as [| |k]; simpl in Hstep.
  - unfold main in Hstep. destruct (main_task s); try discriminate.
    + destruct (ppoint (customer_producer s)); try discriminate.
      injection Hstep as <-. simpl. lia.
    + destruct (join _); [|discriminate]. simpl in Hstep.
      destruct (ppoint (customer_producer s)); injection Hstep as <-; simpl;
        rewrite weight_cancel; lia.
  - destruct (customer_generation _ _) as [[[p q] evs]|] eqn:Hg; [|discriminate].
    injection Hstep as <-. simpl.
    apply customer_generation_cases in Hg as [Htot Hg].
    unfold producer_weight. rewrite Htot.
    destruct Hg as [(n0 & Hp & Hlt & Hp' & -> & ->)
                   |[(n0 & Hp & Hge & Hp' & -> & ->)
                    |(n0 & c0 & Hp & Hq & Hp' & ->)]]; rewrite Hp, Hp'.
    + unfold customer_weight. simpl.
      replace (Z.to_nat (total_customers (customer_producer s) - n0))
        with (S (Z.to_nat (total_customers (customer_producer s) - (n0 + 1))))
        by lia.
      lia.
    + lia.
    + apply put_items in Hq as (-> & _). rewrite sum_list_with_app.
      unfold customer_weight. simpl. lia.
  - destruct (cashiers s !! k) as [me|] eqn:Hme; [|discriminate]. simpl in Hstep.
    destruct (checkout_customer _ _ _) as [[[[me' q] times] evs]|] eqn:Hc;
      [|discriminate].
    injection Hstep as <-. simpl.
    apply checkout_customer_weight in Hc.
    pose proof (weight_insert _ _ _ me' Hme). lia.
Qed.

(** No run is longer than the weight of the state it starts in. *)
Lemma run_length schedule : ∀ s s',
  run schedule s = Some s' → (length schedule + weight s' ≤ weight s)%nat.
Proof.
  induction schedule as [|t schedule IH]; intros s s' H; simpl in H.
  - injection H as <-. simpl. lia.
  - destruct (step t s) as [s1|] eqn:E; [|discriminate]. simpl in H.
    apply IH in H. apply step_weight in E. simpl. lia.
Qed.

Lemma weight_start size total n :
  weight (start size total n) = (7 * Z.to_nat total + n + 3)%nat.
Proof.
  unfold weight, producer_weight. simpl. rewrite Z.sub_0_r.
  assert (sum_list_with cashier_weight
            ((λ i, checkout_customer_task (Z.of_nat i)) <$> seq 0 n) = n) as ->.
  { generalize 0%nat. induction n as [|n IH]; intros a; csimpl; [done|].
    by rewrite IH. }
  lia.
Qed.

(** A cashier that is not done and not cancelled can run, unless it
    waits for a customer at an empty queue. *)
Lemma cashier_can_run s k me :
  cashiers s !! k = Some me → done me = false →
  (must_cancel me = false → holding me = 0%nat →
   items (customer_queue s) ≠ []) →
  ∃ s', step (TCashier k) s = Some s'.
Proof.
  intros Hme Hd Hq. simpl. rewrite Hme. simpl. unfold checkout_customer.
  rewrite Hd. destruct (must_cancel me); [eauto|].
  unfold done, holding in *.
  destruct (point me) as [cnt|cnt c t rest| | |]; try done.
  - unfold get. destruct (items (customer_queue s)) as [|c rest]; [by destruct Hq|].
    simpl. destruct (for_products _ _ _ _ _) as [[pt q] evs]. eauto.
  - destruct (PyNum.add_at _ _ _); [|eauto].
    destruct (for_products _ _ _ _ _) as [[pt q] evs]. eauto.
Qed.

Lemma holders_positive cs :
  (0 < holders cs)%nat → ∃ k me, cs !! k = Some me ∧ holding me = 1%nat.
Proof.
  unfold holders. induction cs as [|c cs IH]; simpl; [lia|]. intros H.
  destruct (holding c) as [|[|h]] eqn:Hc.
  - destruct IH as (k & me & Hk & Hh); [lia|]. by exists (S k), me.
  - by exists 0%nat, c.
  - unfold holding in Hc. by destruct (point c).
Qed.

Lemma not_all_done cs :
  forallb done cs = false → ∃ k me, cs !! k = Some me ∧ done me = false.
Proof.
  induction cs as [|c cs IH]; simpl; [done|].
  destruct (done c) eqn:Hc; simpl.
  - intros H. destruct (IH H) as (k & me & Hk & Hd). by exists (S k), me.
  - intros _. by exists 0%nat, c.
Qed.

Lemma all_done cs k me :
  forallb done cs = true → cs !! k = Some me → done me = true.
Proof.
  revert k. induction cs as [|c cs IH]; intros [|k] H Hk; simplify_eq/=;
    apply andb_true_iff in H as [? ?]; eauto.
Qed.

(** With at least one cashier, a run can go on until it is at its end. *)
Lemma progress size total n s :
  (0 < n)%nat → reachable (start size total n) s →
  (∃ t s', step t s = Some s') ∨ final s.
Proof.
  intros Hn Hs.
  pose proof (shape_inv_reachable _ _ _ _ Hs) as Hsh.
  pose proof (inv_unfinished _ _ _ _ Hsh) as Hacc.
  pose proof (inv_main _ _ _ _ Hsh) as Hmain.
  assert (Hfirst : ∃ c0, cashiers s !! 0%nat = Some c0).
  { apply lookup_lt_is_Some. rewrite (inv_cashiers _ _ _ _ Hsh). lia. }
  assert (Hnd : ∀ k me, cashiers s !! k = Some me →
            must_cancel me = false → done me = false).
  { intros k me Hme Hf. destruct (inv_points _ _ _ _ Hsh _ _ Hme) as (? & ? & Hc).
    unfold done. destruct (point me); try done.
    specialize (Hc eq_refl). congruence. }
  assert (Hbusy : (∀ k me, cashiers s !! k = Some me → must_cancel me = false) →
            0 < unfinished_tasks (customer_queue s) →
            ∃ t s', step t s = Some s').
  { intros Hflags Hpos.
    destruct (Nat.eq_dec (holders (cashiers s)) 0%nat) as [Hz|Hnz].
    - destruct Hfirst as [c0 Hc0]. exists (TCashier 0).
      apply (cashier_can_run _ _ c0); eauto.
      intros _ _ Hnil. rewrite Hnil, Hz in Hacc. simpl in Hacc. lia.
    - destruct (holders_positive (cashiers s)) as (k & me & Hme & Hh); [lia|].
      exists (TCashier k). apply (cashier_can_run _ _ me); eauto.
      intros _ Hh'. lia. }
  destruct (main_task s) as [| |r ts|] eqn:Hm; [| | |done].
  - (* main awaits the producer *)
    left. destruct (ppoint (customer_producer s)) as [cnt|cnt c|r] eqn:Hp.
    + exists TProducer. simpl. unfold customer_generation. rewrite Hp.
      destruct (cnt <? _); eauto.
    + destruct (full (customer_queue s)) eqn:Hfull.
      * apply Hbusy; [done|]. unfold full in Hfull.
        apply andb_true_iff in Hfull as [H1 H2].
        apply Z.ltb_lt in H1. apply Z.leb_le in H2. lia.
      * exists TProducer. simpl. unfold customer_generation, put.
        rewrite Hp, Hfull. simpl. eauto.
    + exists TMain. simpl. unfold main. rewrite Hm, Hp. eauto.
  - (* main waits in join *)
    left. destruct Hmain as [Hflags [r Hr]].
    destruct (Z.eq_dec (unfinished_tasks (customer_queue s)) 0) as [Hz|Hnz].
    + exists TMain. simpl. unfold main. rewrite Hm.
      apply join_zero in Hz. rewrite Hz, Hr. simpl. eauto.
    + apply Hbusy; [done|lia].
  - (* main has finished *)
    destruct (forallb done (cashiers s)) eqn:Hall.
    + right. split; [eauto|]. intros k me Hme.
      pose proof (all_done _ _ _ Hall Hme) as Hd.
      destruct (inv_points _ _ _ _ Hsh _ _ Hme) as (? & ? & _).
      unfold done in Hd. by destruct (point me).
    + left. destruct (not_all_done _ Hall) as (k & me & Hme & Hd).
      exists (TCashier k). apply (cashier_can_run _ _ me); eauto.
      destruct Hmain as (_ & _ & _ & Hflags). rewrite (Hflags _ _ Hme). done.
Qed.

End Termination.

(** ** The order of the events *)

Section Order.

Lemma trace_inv_step size total n s t s' :
  shape_inv size total n s → history_inv total s →
  trace_inv s → step t s = Some s' → trace_inv s'.
Proof.
  intros Hsh Hh [Hret Hord] Hstep.
  pose proof (inv_main _ _ _ _ Hsh) as Hmain.
  destruct t as [| |k]; simpl in Hstep.
  - (* main *)
    unfold main in Hstep.
    destruct (main_task s) as [| |r0 ts0|] eqn:Hm; try discriminate.
    + destruct (ppoint (customer_producer s)) as [| |r] eqn:Hp; try discriminate.
      injection Hstep as <-. split; simpl; [by rewrite Hp|done].
    + destruct (join _) as [[]|] eqn:Hj; [|discriminate]. simpl in Hstep.
      apply join_zero in Hj. destruct Hmain as [_ [r Hr]].
      rewrite Hr in Hstep. injection Hstep as <-. split; simpl.
      * rewrite Hr. intros r' [= <-]. apply elem_of_app. left. eauto.
      * exists (trace s), (((λ c, ECancel (cashier_number c)) <$> cashiers s)
                           ++ [EReport r (cashier_times s)]).
        repeat split; try done; [|by apply Hret|].
        -- apply Forall_app. split; [|by repeat constructor].
           apply Forall_fmap, Forall_true. done.
        -- pose proof (hist_unfinished _ _ Hh). lia.
  - (* the producer *)
    destruct (customer_generation _ _) as [[[p q] evs]|] eqn:Hg; [|discriminate].
    injection Hstep as <-.
    apply customer_generation_cases in Hg as [_ Hg].
    assert (Hnp : ∀ r, ppoint (customer_producer s) ≠ Produced r).
    { intros r Hr. destruct Hg as [Hg|[Hg|Hg]]; unpack; congruence. }
    split; simpl.
    + intros r Hr. apply elem_of_app. right.
      destruct Hg as [(n0 & Hp & Hlt & Hp' & -> & ->)
                     |[(n0 & Hp & Hge & Hp' & -> & ->)
                      |(n0 & c0 & Hp & Hq & Hp' & ->)]]; try congruence.
      replace r with n0 by congruence. by left.
    + destruct (main_task s) as [| |r0 ts0|]; try done.
      * apply Forall_app. split; [done|].
        destruct Hg as [Hg|[Hg|Hg]]; unpack; subst; by repeat constructor.
      * destruct Hmain as [_ [r Hr]]. by apply Hnp in Hr.
      * destruct Hmain as [Hr _]. by apply Hnp in Hr.
  - (* the cashier k *)
    destruct (cashiers s !! k) as [me|] eqn:Hme; [|discriminate]. simpl in Hstep.
    destruct (checkout_customer _ _ _) as [[[[me' q] times] evs]|] eqn:Hc;
      [|discriminate].
    injection Hstep as <-. split; simpl.
    + intros r Hr. apply elem_of_app. left. eauto.
    + apply checkout_customer_cases in Hc. simpl in Hc.
      assert (Hwork : must_cancel me = false → Forall working_event evs).
      { intros Hf. destruct Hc as [Hc|[Hc|[Hc|Hc]]]; unpack; subst;
          try congruence;
          repeat match goal with
          | Hf : for_products _ _ _ _ _ = _ |- _ =>
              apply for_products_cases in Hf;
              destruct Hf as [Hf|[Hf|Hf]]; unpack; subst
          end; by repeat constructor. }
      destruct (main_task s) as [| |r0 ts0|]; try done.
      * apply Forall_app. split; [done|]. apply Hwork. eauto.
      * apply Forall_app. split; [done|]. apply Hwork.
        destruct Hmain as [Hmain _]. eauto.
      * destruct Hmain as (_ & _ & _ & Hall).
        destruct Hord as (pre & post & Htr & Hpre & Hpost & Hin & Hcount).
        exists pre, (post ++ evs). rewrite Htr, <- app_assoc. simpl.
        repeat split; try done. apply Forall_app. split; [done|].
        rewrite (Hall _ _ Hme) in Hc.
        destruct Hc as [Hc|[Hc|[Hc|Hc]]]; unpack; subst; try congruence.
        by repeat constructor.
Qed.

Lemma trace_inv_reachable size total n s :
  reachable (start size total n) s → trace_inv s.
Proof.
  intros Hs. induction Hs as [|s t s' Hs IH Hstep].
  { split; simpl; [done|apply Forall_nil_2]. }
  eapply trace_inv_step; [| |exact IH|exact Hstep].
  - by apply shape_inv_reachable.
  - by eapply history_inv_reachable.
Qed.

Lemma shutdown_events_silent evs :
  Forall shutdown_event evs →
  count is_put evs = 0%nat ∧ count is_task_done evs = 0%nat ∧
  count is_get evs = 0%nat ∧ EJoinReturn ∉ evs.
Proof.
  induction 1 as [|e evs He _ (IH1 & IH2 & IH3 & IH4)].
  - repeat split; try done. apply not_elem_of_nil.
  - rewrite !count_cons, IH1, IH2, IH3.
    destruct e; try done; repeat split; try done;
      intros Hin; apply elem_of_cons in Hin as [?|?]; done.
Qed.

Lemma working_not_shutdown evs e :
  Forall working_event evs → e ∈ evs → working_event e.
Proof. intros H Hin. by eapply Forall_forall in H. Qed.

(** Where the trace of a run is cut before a return of [join]: there
    is one such cut, between the work and the shutdown. *)
Lemma cut_at_join pre post a b :
  Forall working_event pre → Forall shutdown_event post →
  pre ++ EJoinReturn :: post = a ++ EJoinReturn :: b →
  a = pre ∧ b = post.
Proof.
  intros Hpre Hpost Heq.
  apply app_eq_app in Heq as [l [[-> Hl]|[-> Hl]]].
  - destruct l as [|e l]; simpl in Hl.
    + injection Hl as ->. by rewrite app_nil_r.
    + injection Hl as He _. subst e. apply Forall_app in Hpre as [_ Hpre].
      by apply Forall_cons in Hpre as [? _].
  - destruct l as [|e l]; simpl in Hl.
    + injection Hl as ->. by rewrite app_nil_r.
    + injection Hl as He Hb. subst e post.
      apply shutdown_events_silent in Hpost as (_ & _ & _ & Hn).
      destruct Hn. apply elem_of_app. right. by left.
Qed.

(** Where the trace of a run is cut before a cancellation: after the
    return of [join]. *)
Lemma cut_at_cancel pre post a i b :
  Forall working_event pre → Forall shutdown_event post →
  pre ++ EJoinReturn :: post = a ++ ECancel i :: b →
  ∃ l, a = pre ++ EJoinReturn :: l ∧ Forall shutdown_event l.
Proof.
  intros Hpre Hpost Heq.
  apply app_eq_app in Heq as [l [[-> Hl]|[-> Hl]]].
  - destruct l as [|e l]; simpl in Hl; [discriminate|].
    injection Hl as He _. subst e. apply Forall_app in Hpre as [_ Hpre].
    by apply Forall_cons in Hpre as [? _].
  - destruct l as [|e l]; simpl in Hl; [discriminate|].
    injection Hl as He Hb. subst e post. exists l. split; [done|].
    by apply Forall_app in Hpost as [? _].
Qed.

End Order.

(** ** The claims about the checkout simulation *)

Section Claims.

Lemma reachable_after schedule : reachable main_start (after schedule).
Proof.
  unfold after. destruct (run schedule main_start) as [s|] eqn:E; simpl.
  - eapply reachable_run; [apply reachable_start | exact E].
  - apply reachable_start.
Qed.

Lemma count_put_log tr : count is_put tr = length (put_log tr).
Proof.
  unfold count, put_log. induction tr as [|[] tr IH]; simpl; auto.
Qed.

Lemma count_get_log tr : count is_get tr = length (get_log tr).
Proof.
  unfold count, get_log. induction tr as [|[] tr IH]; simpl; auto.
Qed.

Lemma generated_length m : length (generated m) = m.
Proof. unfold generated. by rewrite length_fmap, length_seq. Qed.

(** The trace of a run in which main has finished: the work with as
    many task_done calls as puts, all the customers put and the producer
    returned, then the return of [join], then the shutdown. *)
Lemma finished_trace size total n s r ts :
  reachable (start size total n) s → main_task s = Finished r ts →
  ∃ pre post,
    trace s = pre ++ EJoinReturn :: post ∧
    Forall working_event pre ∧ Forall shutdown_event post ∧
    EProducerReturn (Z.max 0 total) ∈ pre ∧
    count is_task_done pre = count is_put pre ∧
    count is_put pre = Z.to_nat total.
Proof.
  intros Hs Hm.
  pose proof (shape_inv_reachable _ _ _ _ Hs) as Hsh.
  pose proof (history_inv_reachable _ _ _ _ Hs) as Hh.
  destruct (trace_inv_reachable _ _ _ _ Hs) as [_ Hord]. rewrite Hm in Hord.
  destruct Hord as (pre & post & Htr & Hpre & Hpost & Hin & Hcount).
  pose proof (inv_main _ _ _ _ Hsh) as Hmain. rewrite Hm in Hmain.
  destruct Hmain as (Hr & _).
  destruct (hist_puts _ _ Hh) as (m & Hprod & Hlog).
  unfold produced_so_far in Hprod. rewrite Hr in Hprod.
  pose proof (hist_produced _ _ Hh _ Hr) as ->.
  exists pre, post. repeat split; try done.
  pose proof (count_put_log (trace s)) as Hputs.
  rewrite Hlog, generated_length, Htr, count_app, count_cons in Hputs.
  destruct (shutdown_events_silent _ Hpost) as (Hp0 & _).
  rewrite Hp0 in Hputs. simpl in Hputs. lia.
Qed.

Lemma unfinished_trace size total n s :
  reachable (start size total n) s →
  (∀ r ts, main_task s ≠ Finished r ts) → Forall working_event (trace s).
Proof.
  intros Hs Hm. destruct (trace_inv_reachable _ _ _ _ Hs) as [_ Hord].
  destruct (main_task s) as [| |r ts|]; try done. by destruct (Hm r ts).
Qed.

(** C1: in every run, for any queue size, number of customers and
    number of cashiers, the queue's counter of unfinished work is the
    number of puts minus the number of task_done calls; while main
    stands at [join], it can go on exactly when the two numbers are
    equal; when it goes on, every customer of the producer has been put,
    the queue is empty and no cashier holds a customer; once main has
    finished the two numbers are equal; and wherever [join] returns in
    the history of the run, as many task_done calls as puts come before
    it, all the customers have been put, and no put and no task_done
    comes after it; and with at least one cashier main does not stay
    blocked in [join]: a run that cannot go on has main finished. *)
Theorem join_returns_when_all_done size total n s :
  reachable (start size total n) s →
  let puts := count is_put (trace s) in
  let dones := count is_task_done (trace s) in
  unfinished_tasks (customer_queue s) = Z.of_nat puts - Z.of_nat dones ∧
  (main_task s = AtJoin → (dones = puts ↔ ∃ s', step TMain s = Some s')) ∧
  (∀ s', main_task s = AtJoin → step TMain s = Some s' →
     dones = puts ∧ puts = Z.to_nat total ∧
     items (customer_queue s) = [] ∧ holders (cashiers s) = 0%nat) ∧
  (∀ r ts, main_task s = Finished r ts → dones = puts) ∧
  (∀ before later, trace s = before ++ EJoinReturn :: later →
     count is_task_done before = count is_put before ∧
     count is_put before = Z.to_nat total ∧
     count is_put later = 0%nat ∧ count is_task_done later = 0%nat) ∧
  ((0 < n)%nat → stuck s → ∃ r ts, main_task s = Finished r ts).
Proof.
  intros Hs puts dones.
  pose proof (shape_inv_reachable _ _ _ _ Hs) as Hsh.
  pose proof (history_inv_reachable _ _ _ _ Hs) as Hh.
  pose proof (hist_unfinished _ _ Hh) as Hu. fold puts dones in Hu.
  pose proof (inv_unfinished _ _ _ _ Hsh) as Hacc.
  assert (Hle : (dones ≤ puts)%nat) by lia.
  assert (Hjoin : main_task s = AtJoin → ∀ s', step TMain s = Some s' →
            unfinished_tasks (customer_queue s) = 0).
  { intros Hm s' Hstep. simpl in Hstep. unfold main in Hstep.
    rewrite Hm in Hstep.
    destruct (join (customer_queue s)) as [[]|] eqn:Hj; [|discriminate].
    by apply join_zero. }
  split; [exact Hu|]. split; [|split; [|split; [|split]]].
  - intros Hm. split.
    + intros Hd. simpl. unfold main. rewrite Hm.
      assert (join (customer_queue s) = Some tt) as -> by (apply join_zero; lia).
      simpl. destruct (ppoint (customer_producer s)); eauto.
    + intros [s' Hstep]. specialize (Hjoin Hm s' Hstep). lia.
  - intros s' Hm Hstep. specialize (Hjoin Hm s' Hstep).
    split; [lia|]. split; [|split; [|lia]].
    + pose proof (inv_main _ _ _ _ Hsh) as Hmain. rewrite Hm in Hmain.
      destruct Hmain as [_ [r Hr]].
      destruct (hist_puts _ _ Hh) as (m & Hprod & Hlog).
      unfold produced_so_far in Hprod. rewrite Hr in Hprod.
      apply (hist_produced _ _ Hh) in Hr.
      unfold puts. rewrite count_put_log, Hlog, generated_length. lia.
    + destruct (items (customer_queue s)); [done|simpl in Hacc; lia].
  - intros r ts Hm. pose proof (inv_main _ _ _ _ Hsh) as Hmain.
    rewrite Hm in Hmain. destruct Hmain as (_ & _ & Hz & _). lia.
  - intros before later Htr.
    destruct (main_task s) as [| |r ts|] eqn:Hm.
    1, 2, 4: (assert (Forall working_event (trace s)) as Hw
                by (apply (unfinished_trace size total n); [done|congruence]);
              rewrite Htr in Hw; apply Forall_app in Hw as [_ Hw];
              by apply Forall_cons in Hw as [? _]).
    destruct (finished_trace _ _ _ _ _ _ Hs Hm)
      as (pre & post & Htr' & Hpre & Hpost & _ & Hcount & Hall).
    rewrite Htr in Htr'. symmetry in Htr'.
    destruct (cut_at_join _ _ _ _ Hpre Hpost Htr') as [-> ->].
    destruct (shutdown_events_silent _ Hpost) as (? & ? & _). done.
  - intros Hn Hstuck.
    destruct (progress _ _ _ _ Hn Hs) as [(t & s' & Hstep)|[Hfin _]]; [|done].
    by rewrite Hstuck in Hstep.
Qed.

Lemma join_returns_when_all_done_witness :
  ∃ s', step TMain (after until_join) = Some s'.
Proof.
  destruct (join_returns_when_all_done 5 20 5 (after until_join)
              (reachable_after until_join)) as (_ & H & _).
  assert (Hm : main_task (after until_join) = AtJoin) by reflexivity.
  apply (H Hm). reflexivity.
Defined.

(** C5: in every run, for any queue size, number of customers and
    number of cashiers, the queue's counter of unfinished work never
    goes below zero and task_done is called at most as often as put; no
    cashier ever stands at an exception; each cashier has called
    task_done once for every customer it has taken, except the one
    whose products it is still checking out; and a cashier resumed
    after main has finished ends cancelled without touching the queue. *)
Theorem task_done_never_fails size total n s :
  reachable (start size total n) s →
  0 ≤ unfinished_tasks (customer_queue s) ∧
  (count is_task_done (trace s) ≤ count is_put (trace s))%nat ∧
  (∀ k me, cashiers s !! k = Some me →
     point me ≠ Raised ∧
     count (is_get_of (Z.of_nat k)) (trace s)
     = (count (is_task_done_of (Z.of_nat k)) (trace s) + holding me)%nat) ∧
  (∀ k s' me', step (TCashier k) s = Some s' →
     cashiers s' !! k = Some me' → point me' ≠ Raised) ∧
  (∀ r ts k s' me', main_task s = Finished r ts →
     step (TCashier k) s = Some s' → cashiers s' !! k = Some me' →
     point me' = Cancelled ∧ customer_queue s' = customer_queue s ∧
     unfinished_tasks (customer_queue s') = 0).
Proof.
  intros Hs.
  pose proof (shape_inv_reachable _ _ _ _ Hs) as Hsh.
  pose proof (history_inv_reachable _ _ _ _ Hs) as Hh.
  pose proof (hist_unfinished _ _ Hh) as Hu.
  pose proof (inv_unfinished _ _ _ _ Hsh) as Hacc.
  split; [lia|]. split; [lia|]. split; [|split].
  - intros k me Hme. split.
    + by destruct (inv_points _ _ _ _ Hsh _ _ Hme).
    + by apply (done_inv_reachable _ _ _ _ Hs).
  - intros k s' me' Hstep Hme'.
    assert (Hs' : reachable (start size total n) s') by (by eapply reachable_step).
    apply shape_inv_reachable in Hs'.
    by destruct (inv_points _ _ _ _ Hs' _ _ Hme').
  - intros r ts k s' me' Hm Hstep Hme'. simpl in Hstep.
    destruct (cashiers s !! k) as [me|] eqn:Hme; [|discriminate]. simpl in Hstep.
    destruct (checkout_customer _ _ _) as [[[[me1 q] times] evs]|] eqn:Hc;
      [|discriminate].
    injection Hstep as <-. simpl in *.
    rewrite list_lookup_insert_eq in Hme' by (by eapply lookup_lt_Some).
    injection Hme' as ->.
    pose proof (inv_main _ _ _ _ Hsh) as Hmain. rewrite Hm in Hmain.
    destruct Hmain as (_ & _ & Hz & Hall).
    apply checkout_customer_cases in Hc. rewrite (Hall _ _ Hme) in Hc.
    destruct Hc as [Hc|[Hc|[Hc|Hc]]]; unpack; try discriminate. by subst.
Qed.

Lemma task_done_never_fails_witness :
  0 ≤ unfinished_tasks (customer_queue (after round_robin)) ∧
  (count is_task_done (trace (after round_robin))
   ≤ count is_put (trace (after round_robin)))%nat.
Proof.
  pose proof (task_done_never_fails 5 20 5 (after round_robin)
                (reachable_after round_robin)) as (H1 & H2 & _).
  exact (conj H1 H2).
Defined.

Lemma step_flags t s s' k me me' :
  step t s = Some s' →
  cashiers s !! k = Some me → cashiers s' !! k = Some me' →
  must_cancel me = false → must_cancel me' = true →
  t = TMain ∧ main_task s = AtJoin ∧
  unfinished_tasks (customer_queue s) = 0 ∧
  main_task s' ≠ AtAwaitProducer ∧ main_task s' ≠ AtJoin.
Proof.
  intros Hstep Hme Hme' Hf Hf'. destruct t as [| |j]; simpl in Hstep.
  - unfold main in Hstep. destruct (main_task s) eqn:Hm; try discriminate.
    + destruct (ppoint (customer_producer s)); try discriminate.
      injection Hstep as <-. simpl in Hme'. congruence.
    + destruct (join _) as [[]|] eqn:Hj; [|discriminate]. simpl in Hstep.
      apply join_zero in Hj.
      destruct (ppoint (customer_producer s)); by injection Hstep as <-.
  - destruct (customer_generation _ _) as [[[p q] evs]|]; [|discriminate].
    injection Hstep as <-. simpl in Hme'. congruence.
  - destruct (cashiers s !! j) as [c|] eqn:Hc; [|discriminate]. simpl in Hstep.
    destruct (checkout_customer _ _ _) as [[[[c' q] times] evs]|] eqn:Hcc;
      [|discriminate].
    injection Hstep as <-. simpl in Hme'.
    apply checkout_customer_number in Hcc as [_ Hflag].
    apply list_lookup_insert_Some in Hme' as [(-> & -> & _)|(_ & Hme')];
      congruence.
Qed.

(** C6: in every run, for any queue size, number of customers and
    number of cashiers: a step that requests the cancellation of a
    cashier is the step of main that leaves [join]; before it the
    producer has returned, having put all its customers, the counter of
    unfinished work is zero, the queue is empty, no cashier holds a
    customer and there are as many task_done calls as puts.  And in
    every state in which the cancellation of a cashier is requested,
    main has finished, the producer has returned and all of this still
    holds.  In the history of the run, before every cancellation come
    the return of the producer, all the puts with as many task_done
    calls, and the return of [join]. *)
Theorem cancel_only_after_join size total n s :
  reachable (start size total n) s →
  (∀ t s' k me me',
     step t s = Some s' →
     cashiers s !! k = Some me → cashiers s' !! k = Some me' →
     must_cancel me = false → must_cancel me' = true →
     t = TMain ∧ main_task s = AtJoin ∧
     ppoint (customer_producer s) = Produced (Z.max 0 total) ∧
     (∃ ts, main_task s' = Finished (Z.max 0 total) ts)) ∧
  ((main_task s = AtJoin ∧ (∃ s', step TMain s = Some s')) ∨
   (∃ k me, cashiers s !! k = Some me ∧ must_cancel me = true) →
   ppoint (customer_producer s) = Produced (Z.max 0 total) ∧
   unfinished_tasks (customer_queue s) = 0 ∧
   items (customer_queue s) = [] ∧
   holders (cashiers s) = 0%nat ∧
   count is_task_done (trace s) = count is_put (trace s) ∧
   count is_put (trace s) = Z.to_nat total) ∧
  (∀ before i later, trace s = before ++ ECancel i :: later →
     EProducerReturn (Z.max 0 total) ∈ before ∧
     EJoinReturn ∈ before ∧
     count is_task_done before = count is_put before ∧
     count is_put before = Z.to_nat total).
Proof.
  intros Hs.
  pose proof (shape_inv_reachable _ _ _ _ Hs) as Hsh.
  pose proof (history_inv_reachable _ _ _ _ Hs) as Hh.
  pose proof (hist_unfinished _ _ Hh) as Hu.
  pose proof (inv_unfinished _ _ _ _ Hsh) as Hacc.
  pose proof (inv_main _ _ _ _ Hsh) as Hmain.
  assert (Hquiet : (∃ r, ppoint (customer_producer s) = Produced r) →
            unfinished_tasks (customer_queue s) = 0 →
            ppoint (customer_producer s) = Produced (Z.max 0 total) ∧
            unfinished_tasks (customer_queue s) = 0 ∧
            items (customer_queue s) = [] ∧
            holders (cashiers s) = 0%nat ∧
            count is_task_done (trace s) = count is_put (trace s) ∧
            count is_put (trace s) = Z.to_nat total).
  { intros [r Hr] Hz.
    destruct (hist_puts _ _ Hh) as (m & Hm & Hlog).
    unfold produced_so_far in Hm. rewrite Hr in Hm.
    pose proof (hist_produced _ _ Hh _ Hr) as ->.
    repeat split; try done; try lia.
    - destruct (items (customer_queue s)); [done|simpl in Hacc; lia].
    - rewrite count_put_log, Hlog, generated_length. lia. }
  split; [|split].
  - intros t s' k me me' Hstep Hme Hme' Hf Hf'.
    destruct (step_flags _ _ _ _ _ _ Hstep Hme Hme' Hf Hf')
      as (-> & Hm & Hz & Hna & Hnj).
    rewrite Hm in Hmain. destruct Hmain as [_ Hr].
    destruct (Hquiet Hr Hz) as (Hp & _).
    repeat split; try done.
    assert (Hs' : reachable (start size total n) s') by (by eapply reachable_step).
    apply shape_inv_reachable in Hs'. pose proof (inv_main _ _ _ _ Hs') as Hmain'.
    pose proof (main_frame _ _ Hstep) as (_ & Hpp & _).
    destruct (main_task s') as [| |r ts|]; try done.
    destruct Hmain' as (Hr' & _). rewrite Hpp, Hp in Hr'.
    injection Hr' as <-. eauto.
  - intros [[Hm [s' Hstep]]|(k & me & Hme & Hf)].
    + rewrite Hm in Hmain. destruct Hmain as [_ Hr]. apply Hquiet; [done|].
      simpl in Hstep. unfold main in Hstep. rewrite Hm in Hstep.
      destruct (join _) as [[]|] eqn:Hj; [|discriminate]. by apply join_zero.
    + destruct (main_task s) as [| |r ts|]; try done.
      * by rewrite (Hmain _ _ Hme) in Hf.
      * destruct Hmain as [Hmain _]. by rewrite (Hmain _ _ Hme) in Hf.
      * destruct Hmain as (Hr & _ & Hz & _). apply Hquiet; eauto.
  - intros before i later Htr.
    destruct (main_task s) as [| |r ts|] eqn:Hm.
    1, 2, 4: (assert (Forall working_event (trace s)) as Hw
                by (apply (unfinished_trace size total n); [done|congruence]);
              rewrite Htr in Hw; apply Forall_app in Hw as [_ Hw];
              by apply Forall_cons in Hw as [? _]).
    destruct (finished_trace _ _ _ _ _ _ Hs Hm)
      as (pre & post & Htr' & Hpre & Hpost & Hin & Hcount & Hall).
    rewrite Htr in Htr'. symmetry in Htr'.
    destruct (cut_at_cancel _ _ _ _ _ Hpre Hpost Htr') as (l & -> & Hl).
    destruct (shutdown_events_silent _ Hl) as (Hp0 & Hd0 & _).
    rewrite !count_app, !count_cons, Hp0, Hd0. simpl.
    repeat split; try lia.
    + apply elem_of_app. by left.
    + apply elem_of_app. right. by left.
Qed.

Lemma cancel_only_after_join_witness :
  (TMain = TMain ∧ main_task (after until_join) = AtJoin ∧
   ppoint (customer_producer (after until_join)) = Produced 20 ∧
   ∃ ts, main_task (after (until_join ++ [TMain])) = Finished 20 ts) ∧
  ppoint (customer_producer (after until_join)) = Produced 20 ∧
  unfinished_tasks (customer_queue (after until_join)) = 0 ∧
  items (customer_queue (after until_join)) = [] ∧
  holders (cashiers (after until_join)) = 0%nat ∧
  count is_task_done (trace (after until_join))
  = count is_put (trace (after until_join)) ∧
  count is_put (trace (after until_join)) = 20%nat.
Proof.
  destruct (cancel_only_after_join 5 20 5 (after until_join)
              (reachable_after until_join)) as (Hstep & Hstate & _).
  split.
  - eapply (Hstep TMain (after (until_join ++ [TMain])) 0%nat); reflexivity.
  - apply Hstate. left. split; [reflexivity|]. eexists. reflexivity.
Defined.

(** C7: the loop of a cashier has no exit: a fresh cashier task does
    not stand at the [return] of line 59, and resuming a cashier, in
    any state of the queue and of the times, never leads there; in
    every run, for any queue size, number of customers and number of
    cashiers, no cashier has returned, and a cashier that has ended has
    ended cancelled, on the request of main, which has finished. *)
Theorem checkout_customer_never_returns :
  (∀ i, point (checkout_customer_task i) ≠ Returned) ∧
  (∀ me q times me' q' times' evs,
     checkout_customer me q times = Some (me', q', times', evs) →
     point me' ≠ Returned) ∧
  (∀ size total n s k me,
     reachable (start size total n) s → cashiers s !! k = Some me →
     point me ≠ Returned ∧
     (done me = true →
      point me = Cancelled ∧ must_cancel me = true ∧
      ∃ r ts, main_task s = Finished r ts)).
Proof.
  split; [done|]. split; [exact checkout_customer_not_returned|].
  intros size total n s k me Hs Hme.
  pose proof (shape_inv_reachable _ _ _ _ Hs) as Hsh.
  destruct (inv_points _ _ _ _ Hsh _ _ Hme) as (Hnr & Hnret & Hcan).
  split; [done|]. intros Hd. unfold done in Hd.
  destruct (point me) eqn:Hp; try done.
  specialize (Hcan eq_refl). repeat split; try done.
  pose proof (inv_main _ _ _ _ Hsh) as Hmain.
  destruct (main_task s) as [| |r ts|]; try done; eauto.
  - by rewrite (Hmain _ _ Hme) in Hcan.
  - destruct Hmain as [Hmain _]. by rewrite (Hmain _ _ Hme) in Hcan.
Qed.

Lemma run_cashier_frame (i j : nat) : ∀ m s s',
  j ≠ i →
  (∀ me, cashiers s !! i = Some me → cashier_number me = Z.of_nat i) →
  run (replicate m (TCashier i)) s = Some s' →
  cashier_times s' !! j = cashier_times s !! j.
Proof.
  induction m as [|m IH]; intros s s' Hne Hnum Hrun; simpl in Hrun.
  - by injection Hrun as <-.
  - destruct (cashiers s !! i) as [me|] eqn:Hme; [|discriminate].
    simpl in Hrun.
    destruct (checkout_customer _ _ _) as [[[[me' q] times] evs]|] eqn:Hc;
      [|discriminate].
    simpl in Hrun. apply IH in Hrun; [|done|]; simpl in *.
    + rewrite Hrun. eapply checkout_customer_frame; [|done|exact Hc]. eauto.
    + intros c Hlook.
      rewrite list_lookup_insert_eq in Hlook by (by eapply lookup_lt_Some).
      injection Hlook as <-.
      apply checkout_customer_number in Hc as [-> _]. eauto.
Qed.

(** C8: a cashier with the number [i] changes no slot [j] other than
    [i]: not when it is resumed once, in any state of the queue and of
    the times, and not over any number of its turns in a row; and it
    reads no other slot: resumed with two lists of times that agree on
    the slot [i], it does the same and leaves the same in the slot [i]. *)
Theorem cashier_touches_own_slot_only (i j : nat) :
  j ≠ i →
  (∀ me q times me' q' times' evs,
     cashier_number me = Z.of_nat i →
     checkout_customer me q times = Some (me', q', times', evs) →
     times' !! j = times !! j) ∧
  (∀ m s s',
     (∀ me, cashiers s !! i = Some me → cashier_number me = Z.of_nat i) →
     run (replicate m (TCashier i)) s = Some s' →
     cashier_times s' !! j = cashier_times s !! j) ∧
  (∀ me q times1 times2,
     cashier_number me = Z.of_nat i →
     times1 !! i = times2 !! i →
     match checkout_customer me q times1, checkout_customer me q times2 with
     | Some (me1, q1, times1', evs1), Some (me2, q2, times2', evs2) =>
         me1 = me2 ∧ q1 = q2 ∧ evs1 = evs2 ∧ times1' !! i = times2' !! i
     | None, None => True
     | _, _ => False
     end).
Proof.
  intros Hne. repeat split.
  - intros. by eapply checkout_customer_frame.
  - intros. by eapply run_cashier_frame.
  - intros. by apply checkout_customer_reads_own_slot.
Qed.

Lemma cashier_touches_own_slot_only_witness :
  cashier_times
    (after ([TProducer; TProducer] ++ replicate 5 (TCashier 0))) !! 1%nat
  = cashier_times (after [TProducer; TProducer]) !! 1%nat.
Proof.
  apply (proj1 (proj2 (cashier_touches_own_slot_only 0 1 ltac:(lia))) 5%nat).
  - intros me [= <-]. reflexivity.
  - reflexivity.
Defined.

Lemma reachable_weight s0 s : reachable s0 s → (weight s ≤ weight s0)%nat.
Proof.
  induction 1 as [|s t s' _ IH Hstep]; [done|].
  apply step_weight in Hstep. lia.
Qed.

Lemma produced_bound total s :
  history_inv total s →
  produced_so_far (customer_producer s) ≤ Z.max 0 total.
Proof.
  intros Hh. unfold produced_so_far.
  destruct (ppoint (customer_producer s)) as [cnt|cnt c|r] eqn:Hp.
  - by apply (hist_at_loop _ _ Hh).
  - destruct (hist_at_put _ _ Hh _ _ Hp). lia.
  - rewrite (hist_produced _ _ Hh _ Hp). lia.
Qed.

(** C3: for a target count [total] that is not negative, in every run,
    for any queue size and number of cashiers: [generate_customer] is a
    function of the identifier, giving the four products of the catalog;
    the customers put in line so far are those with the identifiers 0,
    1, ..., in this order, as many as the producer's count, which is at
    most [total]; when the producer has returned, it has returned
    [total] and has put exactly the customers 0 .. total-1; the producer
    can always run unless it has returned or waits at a full queue; with
    at least one cashier, a run that cannot go on has the producer
    returned; and no run is longer than 7 total + n + 3 turns. *)
Theorem customer_generation_puts_all size total n s :
  0 ≤ total →
  reachable (start size total n) s →
  (∀ i, generate_customer i =
        {| customer_id := i;
           products :=
             [ {| product_name := "beef"; checkout_time := 1 |};
               {| product_name := "banana"; checkout_time := 0.4 |};
               {| product_name := "sausage"; checkout_time := 0.4 |};
               {| product_name := "diapers"; checkout_time := 0.2 |} ] |}) ∧
  (∀ m, customer_id <$> generated m = Z.of_nat <$> seq 0 m) ∧
  (∃ m : nat,
     produced_so_far (customer_producer s) = Z.of_nat m ∧
     Z.of_nat m ≤ total ∧ put_log (trace s) = generated m) ∧
  (∀ r, ppoint (customer_producer s) = Produced r →
     r = total ∧ put_log (trace s) = generated (Z.to_nat total)) ∧
  (step TProducer s = None →
     (∃ r, ppoint (customer_producer s) = Produced r) ∨
     (∃ k c, ppoint (customer_producer s) = AtPut k c ∧
             full (customer_queue s) = true)) ∧
  ((0 < n)%nat → stuck s →
     ppoint (customer_producer s) = Produced total ∧
     put_log (trace s) = generated (Z.to_nat total)) ∧
  (∀ schedule s', run schedule s = Some s' →
     (length schedule ≤ 7 * Z.to_nat total + n + 3)%nat).
Proof.
  intros Htotal Hs.
  pose proof (shape_inv_reachable _ _ _ _ Hs) as Hsh.
  pose proof (history_inv_reachable _ _ _ _ Hs) as Hh.
  pose proof (produced_bound _ _ Hh) as Hbound.
  destruct (hist_puts _ _ Hh) as (m & Hm & Hlog).
  assert (Hret : ∀ r, ppoint (customer_producer s) = Produced r →
            r = total ∧ put_log (trace s) = generated (Z.to_nat total)).
  { intros r Hr. pose proof (hist_produced _ _ Hh _ Hr) as ->.
    unfold produced_so_far in Hm. rewrite Hr in Hm.
    split; [lia|]. rewrite Hlog. f_equal. lia. }
  split; [done|]. split.
  { intros k. unfold generated. rewrite <- list_fmap_compose.
    by apply list_fmap_ext. }
  split; [exists m; repeat split; [done|lia|done]|].
  split; [exact Hret|]. split; [|split].
  - simpl. unfold customer_generation, put.
    destruct (ppoint (customer_producer s)) as [cnt|cnt c|r]; [|right|left; eauto].
    + by destruct (cnt <? _).
    + destruct (full (customer_queue s)); [eauto|done].
  - intros Hn Hstuck.
    destruct (progress _ _ _ _ Hn Hs) as [(t & s' & Hstep)|[(r & ts & Hm') _]].
    { by rewrite Hstuck in Hstep. }
    pose proof (inv_main _ _ _ _ Hsh) as Hmain. rewrite Hm' in Hmain.
    destruct Hmain as (Hr & _). destruct (Hret _ Hr) as [-> ?]. done.
  - intros schedule s' Hrun. apply run_length in Hrun.
    apply reachable_weight in Hs. rewrite weight_start in Hs. lia.
Qed.

Lemma customer_generation_puts_all_witness :
  put_log (trace (after round_robin)) = generated 20.
Proof.
  pose proof (customer_generation_puts_all 5 20 5 (after round_robin)
                ltac:(lia) (reachable_after round_robin))
    as (_ & _ & _ & H & _).
  exact (proj2 (H 20 eq_refl)).
Defined.

(** *** The slots of [main] *)

Local Arguments Nat.mul : simpl never.

(** The first eighty additions: no sum is negative and no addition
    makes the sum smaller. *)
Lemma accumulated_table (a : nat) :
  (a < 80)%nat →
  (0 <=? accumulated a)%float = true ∧
  (accumulated a <=? accumulated (S a))%float = true.
Proof.
  intros Ha.
  assert (forallb (λ a, (0 <=? accumulated a)%float
                        && (accumulated a <=? accumulated (S a))%float)
            (seq 0 80) = true) as Hall by (vm_compute; reflexivity).
  rewrite forallb_forall in Hall.
  specialize (Hall a). apply andb_true_iff. apply Hall.
  apply in_seq. lia.
Qed.

Lemma accumulated_80 : (0 <=? accumulated 80)%float = true.
Proof. vm_compute. reflexivity. Qed.

Lemma catalog_times_nonnegative :
  Forall (λ t, (0 <=? t)%float = true) catalog_times.
Proof. repeat constructor. Qed.

Lemma count_get_of_le i tr : (count (is_get_of i) tr ≤ count is_get tr)%nat.
Proof.
  induction tr as [|e tr IH]; [done|]. rewrite !count_cons.
  destruct e; simpl; try lia. destruct (i =? cashier); lia.
Qed.

(** In a run of [main] no cashier takes more than twenty customers. *)
Lemma gets_bound s i :
  reachable main_start s → (count (is_get_of i) (trace s) ≤ 20)%nat.
Proof.
  intros Hs. pose proof (history_inv_reachable _ _ _ _ Hs) as Hh.
  pose proof (produced_bound _ _ Hh) as Hb.
  destruct (hist_puts _ _ Hh) as (m & Hm & Hlog).
  pose proof (hist_fifo _ _ Hh) as Hfifo.
  apply (f_equal length) in Hfifo.
  rewrite Hlog, generated_length, length_app, <- count_get_log in Hfifo.
  pose proof (count_get_of_le i (trace s)). lia.
Qed.

Lemma point_inv_adds pt adds gets :
  point_inv pt adds gets → (adds ≤ 4 * gets)%nat.
Proof.
  destruct pt; simpl; try done; try lia.
  intros (g & before & -> & -> & _ & Hc).
  pose proof catalog_times_length as Hl. rewrite Hc, length_app in Hl.
  simpl in Hl. lia.
Qed.

(** What a turn does to the list of times: nothing, or line 48 for a
    cashier standing at its sleep. *)
Lemma step_times t s s' :
  step t s = Some s' →
  cashier_times s' = cashier_times s ∨
  ∃ k me cnt c take_time rest times',
    t = TCashier k ∧ cashiers s !! k = Some me ∧
    point me = AtSleep cnt c take_time rest ∧
    PyNum.add_at (cashier_times s) (cashier_number me) take_time = Some times' ∧
    cashier_times s' = times'.
Proof.
  intros Hstep. destruct t as [| |k]; simpl in Hstep.
  - left. by apply main_frame in Hstep as (_ & _ & ? & _).
  - left. destruct (customer_generation _ _) as [[[p q] evs]|]; [|discriminate].
    by injection Hstep as <-.
  - destruct (cashiers s !! k) as [me|] eqn:Hme; [|discriminate]. simpl in Hstep.
    destruct (checkout_customer _ _ _) as [[[[me' q] times] evs]|] eqn:Hc;
      [|discriminate].
    injection Hstep as <-. simpl.
    apply checkout_customer_cases in Hc. simpl in Hc.
    destruct Hc as [Hc|[Hc|[Hc|Hc]]]; unpack; subst; auto.
    right. repeat eexists; eauto.
Qed.

(** C10: in every run of [main]: the slots start at 0; the times added
    are those of the catalog, rounded, none of them negative; no slot
    is ever negative; and a turn of the event loop leaves a slot as it
    is or adds one of these times to it (line 48), and never makes it
    smaller. *)
Theorem slots_never_decrease s :
  reachable main_start s →
  cashier_times main_start = replicate 5 0%float ∧
  Forall (λ t, (0 <=? t)%float = true) catalog_times ∧
  (∀ j v, cashier_times s !! j = Some v → (0 <=? v)%float = true) ∧
  (∀ t s' j v,
     step t s = Some s' → cashier_times s !! j = Some v →
     ∃ v', cashier_times s' !! j = Some v' ∧
           (v <=? v')%float = true ∧
           (v' = v ∨ ∃ take_time, take_time ∈ catalog_times ∧
                       v' = (v + take_time)%float)).
Proof.
  intros Hs.
  pose proof (shape_inv_reachable _ _ _ _ Hs) as Hsh.
  pose proof (slot_inv_reachable _ _ _ _ Hs) as Hsl.
  assert (Hslot : ∀ j v, cashier_times s !! j = Some v →
            ∃ me, cashiers s !! j = Some me ∧
                  v = accumulated (count (is_add_of (Z.of_nat j)) (trace s)) ∧
                  point_inv (point me)
                    (count (is_add_of (Z.of_nat j)) (trace s))
                    (count (is_get_of (Z.of_nat j)) (trace s))).
  { intros j v Hv.
    destruct (lookup_lt_is_Some_2 (cashiers s) j) as [me Hme].
    { rewrite (inv_cashiers _ _ _ _ Hsh), <- (inv_times _ _ _ _ Hsh).
      by eapply lookup_lt_Some. }
    destruct (slot_cashiers _ Hsl _ _ Hme) as [Hv' Hpi].
    exists me. repeat split; [done| |done]. congruence. }
  assert (Hrefl : ∀ a, (a ≤ 80)%nat → (accumulated a <=? accumulated a)%float = true).
  { intros a Ha.
    assert (forallb (λ a, (accumulated a <=? accumulated a)%float) (seq 0 81)
            = true) as Hall by (vm_compute; reflexivity).
    rewrite forallb_forall in Hall. apply Hall, in_seq. lia. }
  split; [done|]. split; [exact catalog_times_nonnegative|]. split.
  - intros j v Hv. destruct (Hslot _ _ Hv) as (me & Hme & -> & Hpi).
    apply point_inv_adds in Hpi.
    pose proof (gets_bound s (Z.of_nat j) Hs) as Hg.
    destruct (decide (count (is_add_of (Z.of_nat j)) (trace s) = 80)%nat) as [->|].
    + exact accumulated_80.
    + apply accumulated_table. lia.
  - intros t s' j v Hstep Hv.
    destruct (Hslot _ _ Hv) as (me & Hme & -> & Hpi).
    pose proof (point_inv_adds _ _ _ Hpi) as Hle.
    pose proof (gets_bound s (Z.of_nat j) Hs) as Hg.
    destruct (step_times _ _ _ Hstep)
      as [->|(k & me' & cnt & c & t1 & rest & times' & -> & Hme' & Hp & Ha & ->)].
    { eexists. split; [exact Hv|]. split; [apply Hrefl; lia|by left]. }
    rewrite (inv_number _ _ _ _ Hsh _ _ Hme'), add_at_nat in Ha.
    destruct (cashier_times s !! k) as [v|] eqn:Hk; simplify_eq/=.
    destruct (decide (j = k)) as [->|Hne].
    + rewrite list_lookup_insert_eq by (by eapply lookup_lt_Some).
      assert (me' = me) as -> by congruence.
      rewrite Hp in Hpi. destruct Hpi as (g & before & Hgets & Hadds & _ & Hcat).
      eexists. split; [done|].
      assert (v = accumulated (count (is_add_of (Z.of_nat k)) (trace s)))
        as -> by congruence.
      rewrite <- (accumulated_S _ g before t1 (take_times rest)) by done.
      split; [apply accumulated_table|right].
      * pose proof catalog_times_length as Hl. rewrite Hcat, length_app in Hl.
        simpl in Hl. lia.
      * exists t1. split; [|by eapply accumulated_S].
        rewrite Hcat. apply elem_of_app. right. by left.
    + rewrite list_lookup_insert_ne by done.
      eexists. split; [exact Hv|]. split; [apply Hrefl; lia|by left].
Qed.

Lemma slots_never_decrease_witness :
  ∃ v, cashier_times (after round_robin) !! 0%nat = Some v ∧
       (0 <=? v)%float = true.
Proof.
  eexists. split; [reflexivity|].
  apply (proj1 (proj2 (proj2 (slots_never_decrease (after round_robin)
                                (reachable_after round_robin)))) 0%nat).
  reflexivity.
Defined.

(** *** Conservation *)

Lemma count_get_split tr :
  Forall (get_event_below 5) tr →
  count is_get tr
  = (count (is_get_of 0) tr + count (is_get_of 1) tr + count (is_get_of 2) tr
     + count (is_get_of 3) tr + count (is_get_of 4) tr)%nat.
Proof.
  induction 1 as [|e tr He _ IH]; [done|]. rewrite !count_cons, IH.
  destruct e; simpl; try lia.
  destruct He as (k & Hk & ->).
  do 5 (destruct k as [|k]; [simpl; lia|]). lia.
Qed.

Lemma slot_error_bound (g : nat) :
  (g ≤ 20)%nat →
  (- (1 # 35184372088832) <= slot_error g)%Q ∧
  (slot_error g <= 1 # 35184372088832)%Q.
Proof.
  intros Hg.
  assert (forallb (λ g, Qle_bool (- (1 # 35184372088832)) (slot_error g)
                        && Qle_bool (slot_error g) (1 # 35184372088832))
            (seq 0 21) = true) as Hall by (vm_compute; reflexivity).
  rewrite forallb_forall in Hall. specialize (Hall g).
  rewrite andb_true_iff, !Qle_bool_iff in Hall. apply Hall, in_seq. lia.
Qed.

(** When [main] has finished, the slot of every cashier holds the sum
    for the customers it has taken, all of them checked out. *)
Lemma finished_slot s r ts k :
  reachable main_start s → main_task s = Finished r ts → (k < 5)%nat →
  cashier_times s !! k
  = Some (accumulated (4 * count (is_get_of (Z.of_nat k)) (trace s))).
Proof.
  intros Hs Hm Hk.
  pose proof (shape_inv_reachable _ _ _ _ Hs) as Hsh.
  pose proof (slot_inv_reachable _ _ _ _ Hs) as Hsl.
  pose proof (inv_unfinished _ _ _ _ Hsh) as Hacc.
  pose proof (inv_main _ _ _ _ Hsh) as Hmain. rewrite Hm in Hmain.
  destruct Hmain as (_ & _ & Hz & _).
  destruct (lookup_lt_is_Some_2 (cashiers s) k) as [me Hme].
  { by rewrite (inv_cashiers _ _ _ _ Hsh). }
  assert (holding me = 0%nat) as Hh by (eapply holders_zero; [|exact Hme]; lia).
  destruct (slot_cashiers _ Hsl _ _ Hme) as [Hslot Hpi].
  rewrite Hslot. do 2 f_equal.
  unfold holding in Hh. destruct (point me); simpl in Hpi; try done.
  by destruct Hpi.
Qed.

(** C2, as the code has it: when [main] of the fixed configuration has
    reported, which it does only after [join] has returned, the total
    produced is 20; the report shows the slots as they are and stay;
    every one of the 20 customers is counted for exactly one cashier,
    and the slot of a cashier holds the binary64 sum, added from the
    left, of the four times of each customer it has taken; the exact
    sum of the five slots is 40 up to rounding: it differs from 40 by
    at most 10^-12. *)
Theorem conservation_up_to_rounding s r ts :
  reachable main_start s → main_task s = Finished r ts →
  r = 20 ∧ ts = cashier_times s ∧ count is_put (trace s) = 20%nat ∧
  ∃ g0 g1 g2 g3 g4 : nat,
    (g0 + g1 + g2 + g3 + g4 = 20)%nat ∧
    ts = [accumulated (4 * g0); accumulated (4 * g1); accumulated (4 * g2);
          accumulated (4 * g3); accumulated (4 * g4)] ∧
    (40 - (1 # 1000000000000) <= exact_total ts)%Q ∧
    (exact_total ts <= 40 + (1 # 1000000000000))%Q.
Proof.
  intros Hs Hm.
  pose proof (shape_inv_reachable _ _ _ _ Hs) as Hsh.
  pose proof (history_inv_reachable _ _ _ _ Hs) as Hh.
  pose proof (slot_inv_reachable _ _ _ _ Hs) as Hsl.
  pose proof (inv_unfinished _ _ _ _ Hsh) as Hacc.
  pose proof (inv_main _ _ _ _ Hsh) as Hmain. rewrite Hm in Hmain.
  destruct Hmain as (Hr & -> & Hz & _).
  pose proof (hist_produced _ _ Hh _ Hr) as ->.
  destruct (hist_puts _ _ Hh) as (m & Hprod & Hlog).
  unfold produced_so_far in Hprod. rewrite Hr in Hprod.
  assert (m = 20%nat) as -> by lia.
  assert (Hputs : count is_put (trace s) = 20%nat).
  { by rewrite count_put_log, Hlog, generated_length. }
  assert (Hgets : count is_get (trace s) = 20%nat).
  { pose proof (hist_fifo _ _ Hh) as Hfifo.
    destruct (items (customer_queue s)); [|simpl in Hacc; lia].
    rewrite app_nil_r in Hfifo.
    by rewrite count_get_log, <- Hfifo, Hlog, generated_length. }
  pose proof (slot_events _ Hsl) as Hev.
  rewrite (inv_cashiers _ _ _ _ Hsh) in Hev.
  rewrite (count_get_split _ Hev) in Hgets.
  repeat split; try done.
  exists (count (is_get_of 0) (trace s)), (count (is_get_of 1) (trace s)),
         (count (is_get_of 2) (trace s)), (count (is_get_of 3) (trace s)),
         (count (is_get_of 4) (trace s)).
  split; [exact Hgets|].
  pose proof (finished_slot _ _ _ 0 Hs Hm ltac:(lia)) as H0.
  pose proof (finished_slot _ _ _ 1 Hs Hm ltac:(lia)) as H1.
  pose proof (finished_slot _ _ _ 2 Hs Hm ltac:(lia)) as H2.
  pose proof (finished_slot _ _ _ 3 Hs Hm ltac:(lia)) as H3.
  pose proof (finished_slot _ _ _ 4 Hs Hm ltac:(lia)) as H4.
  pose proof (inv_times _ _ _ _ Hsh) as Hlen.
  destruct (cashier_times s) as [|t0 [|t1 [|t2 [|t3 [|t4 [|]]]]]];
    try discriminate.
  simpl in H0, H1, H2, H3, H4.
  change (Z.of_nat 0) with 0 in *. change (Z.of_nat 1) with 1 in *.
  change (Z.of_nat 2) with 2 in *. change (Z.of_nat 3) with 3 in *.
  change (Z.of_nat 4) with 4 in *.
  injection H0 as ->. injection H1 as ->. injection H2 as ->.
  injection H3 as ->. injection H4 as ->.
  split; [done|].
  set (g0 := count (is_get_of 0) (trace s)) in *.
  set (g1 := count (is_get_of 1) (trace s)) in *.
  set (g2 := count (is_get_of 2) (trace s)) in *.
  set (g3 := count (is_get_of 3) (trace s)) in *.
  set (g4 := count (is_get_of 4) (trace s)) in *.
  destruct (slot_error_bound g0 ltac:(lia)) as [L0 U0].
  destruct (slot_error_bound g1 ltac:(lia)) as [L1 U1].
  destruct (slot_error_bound g2 ltac:(lia)) as [L2 U2].
  destruct (slot_error_bound g3 ltac:(lia)) as [L3 U3].
  destruct (slot_error_bound g4 ltac:(lia)) as [L4 U4].
  unfold slot_error in *.
  assert (Hsum : (inject_Z (2 * Z.of_nat g0) + inject_Z (2 * Z.of_nat g1)
                  + inject_Z (2 * Z.of_nat g2) + inject_Z (2 * Z.of_nat g3)
                  + inject_Z (2 * Z.of_nat g4) == 40)%Q).
  { rewrite <- !inject_Z_plus.
    replace (2 * Z.of_nat g0 + 2 * Z.of_nat g1 + 2 * Z.of_nat g2
             + 2 * Z.of_nat g3 + 2 * Z.of_nat g4) with 40 by lia.
    reflexivity. }
  unfold exact_total. simpl foldr.
  generalize dependent (PyNum.to_Q (accumulated (4 * g0))).
  generalize dependent (PyNum.to_Q (accumulated (4 * g1))).
  generalize dependent (PyNum.to_Q (accumulated (4 * g2))).
  generalize dependent (PyNum.to_Q (accumulated (4 * g3))).
  generalize dependent (PyNum.to_Q (accumulated (4 * g4))).
  generalize dependent (inject_Z (2 * Z.of_nat g0)).
  generalize dependent (inject_Z (2 * Z.of_nat g1)).
  generalize dependent (inject_Z (2 * Z.of_nat g2)).
  generalize dependent (inject_Z (2 * Z.of_nat g3)).
  generalize dependent (inject_Z (2 * Z.of_nat g4)).
  intros. split; lra.
Qed.

Lemma conservation_up_to_rounding_witness :
  (40 - (1 # 1000000000000)
   <= exact_total (replicate 5 8.0000000000000018%float))%Q ∧
  (exact_total (replicate 5 8.0000000000000018%float)
   <= 40 + (1 # 1000000000000))%Q.
Proof.
  destruct (conservation_up_to_rounding (after round_robin) 20
              (replicate 5 8.0000000000000018%float)
              (reachable_after round_robin) eq_refl)
    as (_ & _ & _ & g0 & g1 & g2 & g3 & g4 & _ & _ & H).
  exact H.
Defined.

(** With an exact equality the conservation fails: in the run
    [round_robin] every cashier checks out four customers, every slot
    ends as 8.0000000000000018, and the slots add up neither exactly
    nor in binary64 to 40, nor to the binary64 sum of the eighty times. *)
Lemma conservation_not_exact :
  ¬ (∀ s r ts,
       reachable main_start s → main_task s = Finished r ts →
       (exact_total ts == 40)%Q ∨ float_total ts = 40%float ∨
       float_total ts = accumulated 80).
Proof.
  intros H.
  destruct (H (after round_robin) 20 (replicate 5 8.0000000000000018%float)
              (reachable_after round_robin) eq_refl) as [Hq|[Hf|Hf]].
  - vm_compute in Hq. discriminate.
  - vm_compute in Hf. discriminate.
  - vm_compute in Hf. discriminate.
Qed.

End Claims.

(** ** More about the runs of the checkout simulation *)

Section MoreRuns.

Lemma reachable_after_from s0 schedule : reachable s0 (after_from s0 schedule).
Proof.
  unfold after_from. destruct (run schedule s0) as [s|] eqn:E; simpl.
  - eapply reachable_run; [apply reachable_start | exact E].
  - apply reachable_start.
Qed.

Lemma capacity_reachable size total n s :
  reachable (start size total n) s → 0 < size →
  Z.of_nat (length (items (customer_queue s))) ≤ size.
Proof.
  intros Hs Hsize. induction Hs as [|s t s' Hs IH Hstep]; [simpl; lia|].
  pose proof (shape_inv_reachable _ _ _ _ Hs) as Hsh.
  pose proof (inv_size _ _ _ _ Hsh) as Hmax.
  destruct t as [| |k]; simpl in Hstep.
  - apply main_frame in Hstep as (-> & _). done.
  - destruct (customer_generation _ _) as [[[p q] evs]|] eqn:Hg; [|discriminate].
    injection Hstep as <-. simpl.
    apply customer_generation_cases in Hg as [_ Hg].
    destruct Hg as [(n0 & Hp & Hlt & Hp' & -> & ->)
                   |[(n0 & Hp & Hge & Hp' & -> & ->)
                    |(n0 & c0 & Hp & Hq & Hp' & ->)]]; try done.
    unfold put in Hq. destruct (full (customer_queue s)) eqn:Hfull; [done|].
    injection Hq as <-. simpl. rewrite length_app. simpl.
    unfold full in Hfull. rewrite Hmax in Hfull.
    apply andb_false_iff in Hfull as [Hf|Hf].
    + apply Z.ltb_ge in Hf. lia.
    + apply Z.leb_gt in Hf. lia.
  - destruct (cashiers s !! k) as [me|] eqn:Hme; [|discriminate]. simpl in Hstep.
    destruct (checkout_customer _ _ _) as [[[[me' q] times] evs]|] eqn:Hc;
      [|discriminate].
    injection Hstep as <-. simpl.
    apply checkout_customer_history in Hc as (_ & _ & Hi & _).
    rewrite Hi, length_app in IH. lia.
Qed.

(** X1: in every run with a queue size above zero the queue never holds
    more customers than its size, and a producer standing at its [put]
    is blocked exactly when the queue holds as many customers as its
    size. *)
Theorem queue_never_over_capacity size total n s :
  reachable (start size total n) s → 0 < size →
  Z.of_nat (length (items (customer_queue s))) ≤ size ∧
  (∀ k c, ppoint (customer_producer s) = AtPut k c →
     (step TProducer s = None
      ↔ Z.of_nat (length (items (customer_queue s))) = size)).
Proof.
  intros Hs Hsize.
  pose proof (capacity_reachable _ _ _ _ Hs Hsize) as Hcap.
  pose proof (shape_inv_reachable _ _ _ _ Hs) as Hsh.
  pose proof (inv_size _ _ _ _ Hsh) as Hmax.
  split; [done|]. intros k c Hp. simpl. unfold customer_generation, put, full.
  rewrite Hp, Hmax.
  replace (0 <? size) with true by (symmetry; apply Z.ltb_lt; lia). simpl.
  destruct (size <=? Z.of_nat (length (items (customer_queue s)))) eqn:E; simpl.
  - apply Z.leb_le in E. split; [lia|done].
  - apply Z.leb_gt in E. split; [done|lia].
Qed.

Lemma queue_never_over_capacity_witness :
  step TProducer (after (take 26 round_robin)) = None.
Proof.
  destruct (queue_never_over_capacity 5 20 5 (after (take 26 round_robin))
              (reachable_after _) ltac:(lia)) as [_ H].
  apply (H 10 (generate_customer 10)); reflexivity.
Defined.

Lemma holders_le_length cs : (holders cs ≤ length cs)%nat.
Proof.
  unfold holders. induction cs as [|c cs IH]; simpl; [lia|].
  unfold holding at 1. destruct (point c); lia.
Qed.

(** X2: in every run the queue's counter of unfinished work is the
    number of customers in line plus the number of cashiers that hold a
    customer; so it is never below the number in line, and with a queue
    size above zero never above the size plus the number of cashiers:
    the producer is never further ahead of the task_done calls. *)
Theorem unfinished_is_in_line_plus_held size total n s :
  reachable (start size total n) s →
  unfinished_tasks (customer_queue s)
  = Z.of_nat (length (items (customer_queue s))) + Z.of_nat (holders (cashiers s)) ∧
  (holders (cashiers s) ≤ n)%nat ∧
  Z.of_nat (length (items (customer_queue s)))
  ≤ unfinished_tasks (customer_queue s) ∧
  (0 < size →
   Z.of_nat (count is_put (trace s)) - Z.of_nat (count is_task_done (trace s))
   ≤ size + Z.of_nat n).
Proof.
  intros Hs.
  pose proof (shape_inv_reachable _ _ _ _ Hs) as Hsh.
  pose proof (history_inv_reachable _ _ _ _ Hs) as Hh.
  pose proof (inv_unfinished _ _ _ _ Hsh) as Hacc.
  pose proof (hist_unfinished _ _ Hh) as Hu.
  pose proof (holders_le_length (cashiers s)) as Hle.
  rewrite (inv_cashiers _ _ _ _ Hsh) in Hle.
  repeat split; try lia.
  intros Hsize. pose proof (capacity_reachable _ _ _ _ Hs Hsize). lia.
Qed.

Lemma unfinished_is_in_line_plus_held_witness :
  unfinished_tasks (customer_queue (after (take 26 round_robin))) = 5 + 5.
Proof.
  exact (proj1 (unfinished_is_in_line_plus_held 5 20 5
                  (after (take 26 round_robin)) (reachable_after _))).
Defined.

Lemma generated_app a b :
  generated (a + b)
  = generated a ++ ((λ i, generate_customer (Z.of_nat i)) <$> seq a b).
Proof. unfold generated. by rewrite seq_app, fmap_app. Qed.

Lemma generated_ids m : customer_id <$> generated m = Z.of_nat <$> seq 0 m.
Proof.
  unfold generated. rewrite <- list_fmap_compose. by apply list_fmap_ext.
Qed.

(** X3: in every run the customers taken from the queue so far, by all
    cashiers together, are the customers 0, 1, ..., g-1 in this order,
    each one taken once, and the customers in line are the next ones,
    g, ..., m-1, where m customers have been put. *)
Theorem customers_taken_in_order size total n s :
  reachable (start size total n) s →
  ∃ g m : nat,
    (g ≤ m)%nat ∧
    put_log (trace s) = generated m ∧
    get_log (trace s) = generated g ∧
    customer_id <$> items (customer_queue s)
    = Z.of_nat <$> seq g (m - g) ∧
    NoDup (customer_id <$> get_log (trace s)).
Proof.
  intros Hs. pose proof (history_inv_reachable _ _ _ _ Hs) as Hh.
  destruct (hist_puts _ _ Hh) as (m & _ & Hlog).
  pose proof (hist_fifo _ _ Hh) as Hfifo. rewrite Hlog in Hfifo.
  set (g := length (get_log (trace s))).
  assert (Hg : (g ≤ m)%nat).
  { apply (f_equal length) in Hfifo.
    rewrite generated_length, length_app in Hfifo. unfold g. lia. }
  replace m with (g + (m - g))%nat in Hfifo at 1 by lia.
  rewrite generated_app in Hfifo.
  apply app_inj_1 in Hfifo as [Hget Hitems];
    [|by rewrite generated_length].
  exists g, m. repeat split; try done.
  - rewrite <- Hitems, <- list_fmap_compose. by apply list_fmap_ext.
  - rewrite <- Hget, generated_ids. apply NoDup_fmap; [apply _|apply NoDup_seq].
Qed.

Lemma customers_taken_in_order_witness :
  ∃ g m : nat,
    (g ≤ m)%nat ∧
    put_log (trace (after (take 26 round_robin))) = generated m ∧
    get_log (trace (after (take 26 round_robin))) = generated g ∧
    customer_id <$> items (customer_queue (after (take 26 round_robin)))
    = Z.of_nat <$> seq g (m - g) ∧
    NoDup (customer_id <$> get_log (trace (after (take 26 round_robin)))).
Proof.
  exact (customers_taken_in_order 5 20 5 (after (take 26 round_robin))
           (reachable_after _)).
Defined.

(** *** One customer, from the queue to [task_done] *)





(** *** The index of line 48 *)




(** *** The end of a run *)

Lemma final_stuck size total n s :
  reachable (start size total n) s → final s → stuck s.
Proof.
  intros Hs [(r & ts & Hm) Hall] t.
  pose proof (shape_inv_reachable _ _ _ _ Hs) as Hsh.
  pose proof (inv_main _ _ _ _ Hsh) as Hmain. rewrite Hm in Hmain.
  destruct Hmain as (Hr & _).
  destruct t as [| |k]; simpl.
  - unfold main. by rewrite Hm.
  - unfold customer_generation. by rewrite Hr.
  - destruct (cashiers s !! k) as [me|] eqn:Hme; [|done]. simpl.
    unfold checkout_customer, done. by rewrite (Hall _ _ Hme).
Qed.

(** X6: the program ends, and ends well, whatever the order in which
    the event loop runs the tasks.  With at least one cashier, for any
    queue size and number of customers: the states in which no task can
    run are those in which main has reported and every cashier is
    cancelled; there the report gives the producer's result, the number
    of customers (0 for a negative number), and the slots as they are,
    the queue is empty with nothing unfinished, and every customer has
    been put and taken; and no run goes on for more turns than the
    weight of its state. *)
Theorem main_runs_to_completion size total n s :
  reachable (start size total n) s → (0 < n)%nat →
  (stuck s ↔ final s) ∧
  (final s →
     main_task s = Finished (Z.max 0 total) (cashier_times s) ∧
     ppoint (customer_producer s) = Produced (Z.max 0 total) ∧
     items (customer_queue s) = [] ∧
     unfinished_tasks (customer_queue s) = 0 ∧
     put_log (trace s) = generated (Z.to_nat total) ∧
     get_log (trace s) = generated (Z.to_nat total)) ∧
  (∀ schedule s', run schedule s = Some s' →
     (length schedule ≤ weight s)%nat ∧
     (weight s ≤ 7 * Z.to_nat total + n + 3)%nat).
Proof.
  intros Hs Hn.
  pose proof (shape_inv_reachable _ _ _ _ Hs) as Hsh.
  pose proof (history_inv_reachable _ _ _ _ Hs) as Hh.
  split; [|split].
  - split; [|by apply (final_stuck size total n)].
    intros Hstuck.
    destruct (progress _ _ _ _ Hn Hs) as [(t & s' & Hstep)|Hfin]; [|done].
    by rewrite Hstuck in Hstep.
  - intros [(r & ts & Hm) _].
    pose proof (inv_main _ _ _ _ Hsh) as Hmain. rewrite Hm in Hmain.
    destruct Hmain as (Hr & -> & Hz & _).
    pose proof (hist_produced _ _ Hh _ Hr) as ->.
    pose proof (inv_unfinished _ _ _ _ Hsh) as Hacc.
    destruct (hist_puts _ _ Hh) as (m & Hprod & Hlog).
    unfold produced_so_far in Hprod. rewrite Hr in Hprod.
    assert (m = Z.to_nat total) as -> by lia.
    pose proof (hist_fifo _ _ Hh) as Hfifo.
    destruct (items (customer_queue s)) eqn:Hitems; [|simpl in Hacc; lia].
    rewrite app_nil_r in Hfifo. repeat split; try done. congruence.
  - intros schedule s' Hrun. apply run_length in Hrun.
    apply reachable_weight in Hs. rewrite weight_start in Hs. lia.
Qed.

Lemma main_runs_to_completion_witness :
  stuck (after round_robin) ∧
  main_task (after round_robin)
  = Finished 20 (cashier_times (after round_robin)).
Proof.
  destruct (main_runs_to_completion 5 20 5 (after round_robin)
              (reachable_after _) ltac:(lia)) as ([_ Hstuck] & Hfinal & _).
  assert (Hfin : final (after round_robin)).
  { split.
    - exists 20, (replicate 5 8.0000000000000018%float).
      vm_compute. reflexivity.
    - assert (cashiers (after round_robin)
              = (λ i, {| cashier_number := Z.of_nat i; point := Cancelled;
                         must_cancel := true |}) <$> seq 0 5) as ->
        by (vm_compute; reflexivity).
      intros k me Hme. apply list_lookup_fmap_Some in Hme as (i & -> & _).
      reflexivity. }
  split; [exact (Hstuck Hfin)|exact (proj1 (Hfinal Hfin))].
Defined.

(** *** What the cashiers keep track of *)

(** X7: the books of a cashier, in every run, for any queue size,
    number of customers and number of cashiers.  Its slot holds the
    binary64 sum, added from the left, of the times it has added so far,
    four for each customer it has finished; its [customer_count], the
    number line 55 prints, is the number of customers it has taken; and
    while it checks out a customer, the time it sleeps for is one of the
    catalog and the products left are those not yet added. *)
Theorem cashier_books size total n s k me :
  reachable (start size total n) s → cashiers s !! k = Some me →
  let adds := count (is_add_of (Z.of_nat k)) (trace s) in
  let gets := count (is_get_of (Z.of_nat k)) (trace s) in
  cashier_times s !! k = Some (accumulated adds) ∧
  (adds ≤ 4 * gets)%nat ∧
  (holding me = 0%nat → adds = (4 * gets)%nat) ∧
  (∀ cnt, point me = AtGet cnt → cnt = Z.of_nat gets) ∧
  (∀ cnt c t rest, point me = AtSleep cnt c t rest →
     cnt = Z.of_nat gets ∧ t ∈ catalog_times ∧
     (adds + length rest + 1 = 4 * gets)%nat).
Proof.
  intros Hs Hme adds gets.
  pose proof (slot_inv_reachable _ _ _ _ Hs) as Hsl.
  destruct (slot_cashiers _ Hsl _ _ Hme) as [Hslot Hpi].
  fold adds gets in Hslot, Hpi.
  split; [done|]. split; [by eapply point_inv_adds|]. split; [|split].
  - intros Hh. unfold holding in Hh.
    destruct (point me); simpl in Hpi; try done. by destruct Hpi.
  - intros cnt Hp. rewrite Hp in Hpi. by destruct Hpi.
  - intros cnt c t rest Hp. rewrite Hp in Hpi.
    destruct Hpi as (g & before & Hg & Ha & Hcnt & Hcat).
    pose proof catalog_times_length as Hl. rewrite Hcat, length_app in Hl.
    simpl in Hl. unfold take_times in Hl. rewrite length_fmap in Hl.
    repeat split; [done| |lia].
    rewrite Hcat. apply elem_of_app. right. by left.
Qed.

Lemma cashier_books_witness :
  cashier_times (after (take 31 round_robin)) !! 0%nat
  = Some (accumulated
            (count (is_add_of 0) (trace (after (take 31 round_robin))))).
Proof.
  pose (me := default (checkout_customer_task 0)
                (cashiers (after (take 31 round_robin)) !! 0%nat)).
  assert (Hme : cashiers (after (take 31 round_robin)) !! 0%nat = Some me)
    by (vm_compute; reflexivity).
  exact (proj1 (cashier_books 5 20 5 (after (take 31 round_robin)) 0 me
                  (reachable_after _) Hme)).
Defined.

(** *** What main never does *)

(** X8: main asks for the producer's result (line 110) only when the
    producer has returned: in no run, for any queue size, number of
    customers and number of cashiers, does main end in the error of
    [result()], and while main stands at [join] the producer has
    already returned. *)
Theorem result_is_ready size total n s :
  reachable (start size total n) s →
  main_task s ≠ Failed ∧
  (main_task s = AtJoin →
     ppoint (customer_producer s) = Produced (Z.max 0 total)) ∧
  (∀ s', step TMain s = Some s' → main_task s' ≠ Failed).
Proof.
  intros Hs.
  pose proof (shape_inv_reachable _ _ _ _ Hs) as Hsh.
  pose proof (history_inv_reachable _ _ _ _ Hs) as Hh.
  pose proof (inv_main _ _ _ _ Hsh) as Hmain.
  split; [|split].
  - intros Hm. by rewrite Hm in Hmain.
  - intros Hm. rewrite Hm in Hmain. destruct Hmain as [_ [r Hr]].
    by rewrite (hist_produced _ _ Hh _ Hr) in Hr.
  - intros s' Hstep Hm.
    assert (Hs' : reachable (start size total n) s') by (by eapply reachable_step).
    apply shape_inv_reachable in Hs'. pose proof (inv_main _ _ _ _ Hs') as Hmain'.
    by rewrite Hm in Hmain'.
Qed.

Lemma result_is_ready_witness :
  main_task (after until_join) ≠ Failed.
Proof.
  exact (proj1 (result_is_ready 5 20 5 (after until_join) (reachable_after _))).
Defined.

(** *** No customers, no cashiers *)

Lemma get_log_le_put_log total s :
  history_inv total s →
  (length (get_log (trace s)) ≤ length (put_log (trace s)))%nat.
Proof.
  intros Hh. pose proof (hist_fifo _ _ Hh) as Hfifo.
  apply (f_equal length) in Hfifo. rewrite length_app in Hfifo. lia.
Qed.

(** X9: a number of customers that is zero or negative.  In every run,
    for any queue size and number of cashiers, the producer puts no
    customer and returns 0; the queue stays empty; no slot ever leaves
    0; and the report of main, when it comes, is 0 customers and all
    slots 0. *)
Theorem no_customers size total n s :
  total ≤ 0 → reachable (start size total n) s →
  put_log (trace s) = [] ∧
  items (customer_queue s) = [] ∧
  cashier_times s = replicate n 0%float ∧
  (∀ r, ppoint (customer_producer s) = Produced r → r = 0) ∧
  (∀ r ts, main_task s = Finished r ts → r = 0 ∧ ts = replicate n 0%float).
Proof.
  intros Htotal Hs.
  pose proof (shape_inv_reachable _ _ _ _ Hs) as Hsh.
  pose proof (history_inv_reachable _ _ _ _ Hs) as Hh.
  pose proof (slot_inv_reachable _ _ _ _ Hs) as Hsl.
  pose proof (produced_bound _ _ Hh) as Hb.
  destruct (hist_puts _ _ Hh) as (m & Hprod & Hlog).
  assert (m = 0%nat) as -> by lia.
  pose proof (hist_fifo _ _ Hh) as Hfifo. rewrite Hlog in Hfifo.
  symmetry in Hfifo. apply app_eq_nil in Hfifo as [Hget Hitems].
  assert (Htimes : cashier_times s = replicate n 0%float).
  { apply list_eq. intros k.
    destruct (decide (k < n)%nat) as [Hk|Hk].
    - rewrite lookup_replicate_2 by done.
      destruct (lookup_lt_is_Some_2 (cashiers s) k) as [me Hme].
      { by rewrite (inv_cashiers _ _ _ _ Hsh). }
      destruct (slot_cashiers _ Hsl _ _ Hme) as [Hslot Hpi].
      apply point_inv_adds in Hpi.
      pose proof (count_get_of_le (Z.of_nat k) (trace s)) as Hle.
      rewrite count_get_log, Hget in Hle. simpl in Hle.
      rewrite Hslot.
      replace (count (is_add_of (Z.of_nat k)) (trace s)) with 0%nat by lia.
      reflexivity.
    - rewrite lookup_ge_None_2 by (rewrite (inv_times _ _ _ _ Hsh); lia).
      symmetry. apply lookup_replicate_None. lia. }
  split; [done|]. split; [done|]. split; [done|]. split.
  - intros r Hr. rewrite (hist_produced _ _ Hh _ Hr). lia.
  - intros r ts Hm. pose proof (inv_main _ _ _ _ Hsh) as Hmain.
    rewrite Hm in Hmain. destruct Hmain as (Hr & -> & _).
    split; [|done]. rewrite (hist_produced _ _ Hh _ Hr). lia.
Qed.

Lemma no_customers_witness :
  put_log (trace (after_from (start 5 0 5) [TProducer; TMain; TMain])) = [] ∧
  cashier_times (after_from (start 5 0 5) [TProducer; TMain; TMain])
  = replicate 5 0%float.
Proof.
  destruct (no_customers 5 0 5
              (after_from (start 5 0 5) [TProducer; TMain; TMain])
              ltac:(lia) (reachable_after_from _ _)) as (H1 & _ & H3 & _).
  exact (conj H1 H3).
Defined.

Lemma no_get_events tr :
  Forall (get_event_below 0) tr → get_log tr = [].
Proof.
  induction 1 as [|e tr He _ IH]; [done|].
  destruct e; simpl; try done. destruct He as (k & Hk & _). lia.
Qed.

(** X10: no cashiers.  With at least one customer and no cashier task,
    for any queue size, main never reports: no customer is ever taken
    or marked done, so the counter of unfinished work is the number of
    customers put, and once the producer has put them all main stays
    in [join] for ever. *)
Theorem no_cashiers_no_report size total s :
  0 < total → reachable (start size total 0) s →
  get_log (trace s) = [] ∧
  count is_task_done (trace s) = 0%nat ∧
  unfinished_tasks (customer_queue s) = Z.of_nat (count is_put (trace s)) ∧
  (∀ r ts, main_task s ≠ Finished r ts) ∧
  (main_task s = AtJoin → step TMain s = None).
Proof.
  intros Htotal Hs.
  pose proof (shape_inv_reachable _ _ _ _ Hs) as Hsh.
  pose proof (history_inv_reachable _ _ _ _ Hs) as Hh.
  pose proof (slot_inv_reachable _ _ _ _ Hs) as Hsl.
  pose proof (slot_events _ Hsl) as Hev.
  rewrite (inv_cashiers _ _ _ _ Hsh) in Hev.
  pose proof (no_get_events _ Hev) as Hget.
  pose proof (hist_fifo _ _ Hh) as Hfifo. rewrite Hget in Hfifo. simpl in Hfifo.
  pose proof (inv_unfinished _ _ _ _ Hsh) as Hacc.
  pose proof (holders_le_length (cashiers s)) as Hhold.
  rewrite (inv_cashiers _ _ _ _ Hsh) in Hhold.
  pose proof (hist_unfinished _ _ Hh) as Hu.
  assert (Hputs : unfinished_tasks (customer_queue s)
                  = Z.of_nat (count is_put (trace s))).
  { rewrite Hacc, count_put_log, Hfifo. f_equal. lia. }
  assert (Hpos : main_task s = AtJoin → 0 < unfinished_tasks (customer_queue s)).
  { intros Hm. pose proof (inv_main _ _ _ _ Hsh) as Hmain. rewrite Hm in Hmain.
    destruct Hmain as [_ [r Hr]].
    destruct (hist_puts _ _ Hh) as (m & Hprod & Hlog).
    unfold produced_so_far in Hprod. rewrite Hr in Hprod.
    rewrite (hist_produced _ _ Hh _ Hr) in Hprod.
    rewrite Hputs, count_put_log, Hlog, generated_length. lia. }
  repeat split; try done; try lia.
  - intros r ts Hm. pose proof (inv_main _ _ _ _ Hsh) as Hmain.
    rewrite Hm in Hmain. destruct Hmain as (Hr & _ & Hz & _).
    destruct (hist_puts _ _ Hh) as (m & Hprod & Hlog).
    unfold produced_so_far in Hprod. rewrite Hr in Hprod.
    rewrite (hist_produced _ _ Hh _ Hr) in Hprod.
    rewrite Hputs, count_put_log, Hlog, generated_length in Hz. lia.
  - intros Hm. specialize (Hpos Hm). simpl. unfold main, join. rewrite Hm.
    replace (unfinished_tasks (customer_queue s) =? 0) with false
      by (symmetry; apply Z.eqb_neq; lia).
    done.
Qed.

Lemma no_cashiers_no_report_witness :
  step TMain
    (after_from (start 5 1 0) [TProducer; TProducer; TProducer; TMain])
  = None.
Proof.
  apply (no_cashiers_no_report 5 1
           (after_from (start 5 1 0) [TProducer; TProducer; TProducer; TMain])
           ltac:(lia) (reachable_after_from _ _)).
  reflexivity.
Defined.

(** *** The shutdown *)

Lemma ended_insert cs : ∀ k me me',
  cs !! k = Some me →
  (ended (<[k := me']> cs) + (if done me then 1 else 0)
   = ended cs + (if done me' then 1 else 0))%nat.
Proof.
  unfold ended.
  induction cs as [|c cs IH]; intros [|k] me me' H; simplify_eq/=; [lia|].
  specialize (IH _ _ me' H). lia.
Qed.

Lemma ended_cancel cs : ended (cancel <$> cs) = ended cs.
Proof.
  unfold ended. induction cs as [|c cs IH]; csimpl; [done|].
  rewrite IH. f_equal. unfold cancel. destruct (done c) eqn:E; [by rewrite E|].
  unfold done in *. simpl. by rewrite E.
Qed.

Lemma ended_none cs :
  (∀ k me, cs !! k = Some me → done me = false) → ended cs = 0%nat.
Proof.
  unfold ended. induction cs as [|c cs IH]; intros H; simpl; [done|].
  rewrite (H 0%nat c eq_refl), IH; [done|].
  intros k me Hk. by apply (H (S k)).
Qed.

Lemma ended_le_length cs : (ended cs ≤ length cs)%nat.
Proof.
  unfold ended. induction cs as [|c cs IH]; simpl; [lia|].
  destruct (done c); lia.
Qed.

Lemma cancels_in_order size total n s :
  shape_inv size total n s →
  (λ c, ECancel (cashier_number c)) <$> cashiers s = cancel_requests n.
Proof.
  intros Hsh. unfold cancel_requests. apply list_eq. intros i.
  rewrite !list_lookup_fmap.
  destruct (decide (i < n)%nat) as [Hi|Hi].
  - destruct (lookup_lt_is_Some_2 (cashiers s) i) as [me Hme].
    { by rewrite (inv_cashiers _ _ _ _ Hsh). }
    rewrite Hme, lookup_seq_lt by done. simpl.
    by rewrite (inv_number _ _ _ _ Hsh _ _ Hme).
  - rewrite lookup_ge_None_2 by (rewrite (inv_cashiers _ _ _ _ Hsh); lia).
    by rewrite lookup_seq_ge by lia.
Qed.

(** The history of a run in which main has finished. *)
Lemma shutdown_reachable size total n s :
  reachable (start size total n) s →
  ∀ r ts, main_task s = Finished r ts →
    ∃ before deliveries,
      trace s = before ++ EJoinReturn :: cancel_requests n
                  ++ EReport r ts :: deliveries ∧
      Forall working_event before ∧
      Forall cancelled_event deliveries ∧
      length deliveries = ended (cashiers s).
Proof.
  intros Hs. induction Hs as [|s t s' Hs IH Hstep]; [done|].
  intros r ts Hm'.
  pose proof (shape_inv_reachable _ _ _ _ Hs) as Hsh.
  pose proof (inv_main _ _ _ _ Hsh) as Hmain.
  destruct t as [| |k]; simpl in Hstep.
  - (* main *)
    unfold main in Hstep.
    destruct (main_task s) as [| |r0 ts0|] eqn:Hm; try discriminate.
    + destruct (ppoint (customer_producer s)); try discriminate.
      injection Hstep as <-. discriminate.
    + destruct (join _) as [[]|]; [|discriminate]. simpl in Hstep.
      destruct Hmain as [Hflags [r1 Hr]]. rewrite Hr in Hstep.
      injection Hstep as <-. simpl in *. injection Hm' as <- <-.
      exists (trace s), []. repeat split.
      * by rewrite (cancels_in_order _ _ _ _ Hsh).
      * apply (unfinished_trace size total n); [done|congruence].
      * constructor.
      * rewrite ended_cancel. symmetry. apply ended_none.
        intros k me Hme.
        destruct (inv_points _ _ _ _ Hsh _ _ Hme) as (? & ? & Hcan).
        unfold done. destruct (point me); try done.
        specialize (Hcan eq_refl). by rewrite (Hflags _ _ Hme) in Hcan.
  - (* the producer *)
    destruct (customer_generation _ _) as [[[p q] evs]|] eqn:Hg; [|discriminate].
    injection Hstep as <-. simpl in Hm'. rewrite Hm' in Hmain.
    destruct Hmain as (Hr & _).
    unfold customer_generation in Hg. by rewrite Hr in Hg.
  - (* the cashier k *)
    destruct (cashiers s !! k) as [me|] eqn:Hme; [|discriminate]. simpl in Hstep.
    destruct (checkout_customer _ _ _) as [[[[me' q] times] evs]|] eqn:Hc;
      [|discriminate].
    injection Hstep as <-. simpl in Hm'. rewrite Hm' in Hmain.
    destruct Hmain as (_ & _ & _ & Hflags).
    destruct (IH _ _ Hm') as (before & deliveries & Htr & Hb & Hd & Hlen).
    apply checkout_customer_cases in Hc. rewrite (Hflags _ _ Hme) in Hc.
    destruct Hc as [(_ & Hdone & -> & -> & -> & ->)|[Hc|[Hc|Hc]]];
      [|unpack; discriminate..].
    exists before, (deliveries ++ [ECancelled (cashier_number me)]).
    simpl. rewrite Htr. repeat split; try done.
    + rewrite <- !app_assoc. simpl. by rewrite <- app_assoc.
    + apply Forall_app. split; [done|]. by repeat constructor.
    + pose proof (ended_insert _ _ _ (at_point me Cancelled) Hme) as Hins.
      rewrite Hdone in Hins.
      change (done (at_point me Cancelled)) with true in Hins.
      cbn iota in Hins. rewrite length_app. simpl. lia.
Qed.

(** X11: the shutdown, in every run, for any queue size, number of
    customers and number of cashiers.  Once main has finished, the
    history of the run is: the work; the return of [join]; the
    cancellation requests for the cashiers 0, 1, ..., n-1, in this
    order; the one report; and then only deliveries of the
    cancellation, one for each cashier that has ended so far, so at most
    one for each cashier. *)
Theorem shutdown_in_order size total n s r ts :
  reachable (start size total n) s → main_task s = Finished r ts →
  ∃ before deliveries,
    trace s = before ++ EJoinReturn :: cancel_requests n
                ++ EReport r ts :: deliveries ∧
    Forall working_event before ∧
    Forall cancelled_event deliveries ∧
    length deliveries = ended (cashiers s) ∧
    (length deliveries ≤ n)%nat.
Proof.
  intros Hs Hm.
  destruct (shutdown_reachable _ _ _ _ Hs _ _ Hm)
    as (before & deliveries & Htr & Hb & Hd & Hlen).
  exists before, deliveries. repeat split; try done.
  rewrite Hlen. pose proof (ended_le_length (cashiers s)) as Hle.
  by rewrite (inv_cashiers _ _ _ _ (shape_inv_reachable _ _ _ _ Hs)) in Hle.
Qed.

Lemma shutdown_in_order_witness :
  ∃ before deliveries,
    trace (after round_robin)
    = before ++ EJoinReturn :: cancel_requests 5
        ++ EReport 20 (replicate 5 8.0000000000000018%float) :: deliveries ∧
    Forall working_event before ∧
    Forall cancelled_event deliveries ∧
    length deliveries = ended (cashiers (after round_robin)) ∧
    (length deliveries ≤ 5)%nat.
Proof.
  apply (shutdown_in_order 5 20 5 (after round_robin) 20
           (replicate 5 8.0000000000000018%float) (reachable_after _)).
  vm_compute. reflexivity.
Defined.

End MoreRuns.

(** ** More about the async iterator *)

Section MoreAsyncIter.

(** The loop from any counter up to 10. *)
Lemma async_for_below (fuel : nat) : ∀ c : Z,
  c ≤ 10 → (Z.to_nat (10 - c) < fuel)%nat →
  AsyncIter.async_for fuel {| AsyncIter.counter := c |}
  = Some (AsyncIter.ticks c (Z.to_nat (10 - c))).
Proof.
  induction fuel as [|fuel IH]; intros c Hc Hfuel; [lia|].
  cbn [AsyncIter.async_for].
  destruct (Z.eq_dec c 10) as [->|Hne].
  - rewrite anext_stop by (simpl; lia). reflexivity.
  - rewrite anext_below by lia.
    rewrite IH by lia. simpl.
    replace (Z.to_nat (10 - c)) with (S (Z.to_nat (10 - (c + 1)))) by lia.
    reflexivity.
Qed.

Lemma ticks_length c n : length (AsyncIter.ticks c n) = (2 * n)%nat.
Proof.
  revert c. induction n as [|n IH]; intros c; simpl; [done|].
  rewrite IH. lia.
Qed.

(** X12: the async iterator from any state.  A loop over an iterator
    whose counter is [c], at most 10, prints c+1, ..., 10 in this order,
    each after one sleep of a second, 10 - c numbers in all, also for a
    negative [c]; over an iterator whose counter is 10 or more it prints
    nothing and does not sleep; so an iterator that has been used up
    stays used up: a second loop over the object that [__aiter__]
    returns, after any number [k] of calls of [__anext__], prints only
    what is left. *)
Theorem async_for_from_any_counter :
  (∀ (c : Z) (fuel : nat),
     c ≤ 10 → (Z.to_nat (10 - c) < fuel)%nat →
     AsyncIter.async_for fuel {| AsyncIter.counter := c |}
     = Some (AsyncIter.ticks c (Z.to_nat (10 - c))) ∧
     length (AsyncIter.ticks c (Z.to_nat (10 - c)))
     = (2 * Z.to_nat (10 - c))%nat) ∧
  (∀ it (fuel : nat),
     10 ≤ AsyncIter.counter it → (0 < fuel)%nat →
     AsyncIter.async_for fuel it = Some []) ∧
  (∀ k fuel : nat,
     (10 < fuel)%nat →
     AsyncIter.async_for fuel (AsyncIter.aiter (AsyncIter.after_calls k))
     = Some (AsyncIter.ticks (Z.min (Z.of_nat k) 10) (10 - k))).
Proof.
  split; [|split].
  - intros c fuel Hc Hfuel. split; [by apply async_for_below|apply ticks_length].
  - intros it [|fuel] Hc Hfuel; [lia|]. cbn [AsyncIter.async_for].
    by rewrite anext_stop.
  - intros k fuel Hfuel. unfold AsyncIter.aiter. rewrite after_calls_counter.
    rewrite async_for_below by lia. do 2 f_equal. lia.
Qed.

End MoreAsyncIter.
